(** * PriceChart.tsx: the synthetic price series and its chart projection

    A shallow embedding of the two React components of
    [src/components/PriceChart.tsx]:

    - [CryptoChart] (the voxel-scene overlay): the reset effect that seeds
      the window, the 800ms tick that advances it, and the values derived
      from the window on every render (polyline points, percent change,
      price readout);
    - [PriceChart] (the sparkline): the vertical axis bounds.

    Numbers.  A JavaScript number is modelled as an exact rational extended
    with [+Infinity], [-Infinity] and [NaN]; the arithmetic is that of
    IEEE 754 on these values without rounding, overflow or a signed zero.
    Division by zero, [Infinity - Infinity] and the like yield the special
    values exactly as in JavaScript.  Where a property depends on the range
    of doubles (a sample or a span that overflows, a guard that underflows)
    it is stated over the arithmetic [binary64], which rounds a result
    beyond the largest double to an infinity and a product or quotient
    below the least one to zero; the simulator and the projector are
    defined over either arithmetic in [Over].

    Effects.  [Math.random] reads the next cell of a tape of draws; the
    code that calls it lives in ExtLib's state monad over the tape.  React
    state ([data], [price]) is passed explicitly. *)

From Stdlib Require Import QArith Qround Qabs Qpower Lqa ZArith Lia List String Ascii
  DecimalString Bool.
From ExtLib Require Import Structures.Monad Structures.MonadState
  Data.Monads.StateMonad.
Import ListNotations MonadNotation.
Local Open Scope monad_scope.
Local Open Scope Q_scope.

(** ** JavaScript numbers *)

Module JS.

Inductive number : Type :=
| Fin (q : Q)
| PInf
| NInf
| NaN.

Declare Scope js_scope.
Delimit Scope js_scope with js.
Bind Scope js_scope with number.

Definition Qltb (x y : Q) : bool := negb (Qle_bool y x).

(** The sign of a rational: [Lt], [Eq] or [Gt] against zero. *)
Definition sgn (q : Q) : comparison := q ?= 0.

Definition neg (a : number) : number :=
  match a with
  | Fin q => Fin (- q)
  | PInf => NInf
  | NInf => PInf
  | NaN => NaN
  end.

Definition add (a b : number) : number :=
  match a, b with
  | NaN, _ | _, NaN => NaN
  | Fin x, Fin y => Fin (x + y)
  | PInf, NInf | NInf, PInf => NaN
  | PInf, _ | _, PInf => PInf
  | NInf, _ | _, NInf => NInf
  end.

Definition sub (a b : number) : number := add a (neg b).

(** An infinity of the sign of [s], [NaN] for a zero. *)
Definition inf_of (s : comparison) : number :=
  match s with
  | Gt => PInf
  | Lt => NInf
  | Eq => NaN
  end.

Definition mul (a b : number) : number :=
  match a, b with
  | NaN, _ | _, NaN => NaN
  | Fin x, Fin y => Fin (x * y)
  | Fin x, PInf | PInf, Fin x => inf_of (sgn x)
  | Fin x, NInf | NInf, Fin x => inf_of (CompOpp (sgn x))
  | PInf, PInf | NInf, NInf => PInf
  | PInf, NInf | NInf, PInf => NInf
  end.

Definition div (a b : number) : number :=
  match a, b with
  | NaN, _ | _, NaN => NaN
  | Fin x, Fin y =>
      if Qeq_bool y 0 then inf_of (sgn x) else Fin (x / y)
  | Fin _, (PInf | NInf) => Fin 0
  | PInf, Fin y => if Qltb y 0 then NInf else PInf
  | NInf, Fin y => if Qltb y 0 then PInf else NInf
  | (PInf | NInf), (PInf | NInf) => NaN
  end.

(** [a < b]; every comparison with [NaN] is false. *)
Definition ltb (a b : number) : bool :=
  match a, b with
  | NaN, _ | _, NaN => false
  | Fin x, Fin y => Qltb x y
  | NInf, NInf => false
  | NInf, _ => true
  | _, PInf => match a with PInf => false | _ => true end
  | _, _ => false
  end.

Definition gtb (a b : number) : bool := ltb b a.

(** [a === b] on numbers. *)
Definition strict_eq (a b : number) : bool :=
  match a, b with
  | Fin x, Fin y => Qeq_bool x y
  | PInf, PInf | NInf, NInf => true
  | _, _ => false
  end.

(** [a >= b]. *)
Definition geb (a b : number) : bool := gtb a b || strict_eq a b.

(** ToBoolean: [0] and [NaN] are falsy. *)
Definition truthy (a : number) : bool :=
  match a with
  | Fin q => negb (Qeq_bool q 0)
  | NaN => false
  | PInf | NInf => true
  end.

(** [a || d] on numbers. *)
Definition logical_or (a d : number) : number := if truthy a then a else d.

(** [v || d] where [v] is an element read from an array: a number, or
    [undefined] when the index is out of range. *)
Definition or_else (v : option number) (d : number) : number :=
  match v with
  | Some a => logical_or a d
  | None => d
  end.

Definition min2 (a b : number) : number :=
  match a, b with
  | NaN, _ | _, NaN => NaN
  | _, _ => if ltb b a then b else a
  end.

Definition max2 (a b : number) : number :=
  match a, b with
  | NaN, _ | _, NaN => NaN
  | _, _ => if ltb a b then b else a
  end.

(** [Math.min(...xs)] and [Math.max(...xs)]: [+Infinity] and [-Infinity]
    on no arguments. *)
Definition Math_min (xs : list number) : number := fold_right min2 PInf xs.
Definition Math_max (xs : list number) : number := fold_right max2 NInf xs.

Definition is_finite (a : number) : Prop := exists q, a = Fin q.

(** Equality of numbers up to the equality of rationals. *)
Definition equiv (a b : number) : Prop :=
  match a, b with
  | Fin x, Fin y => x == y
  | PInf, PInf | NInf, NInf | NaN, NaN => True
  | _, _ => False
  end.

(** Rounding towards zero. *)
Definition Qtrunc (q : Q) : Z := if Qltb q 0 then Qceiling q else Qfloor q.

(** [a % b]: the remainder of the truncated quotient. *)
Definition rem (a b : number) : number :=
  match a, b with
  | NaN, _ | _, NaN => NaN
  | (PInf | NInf), _ => NaN
  | Fin x, (PInf | NInf) => Fin x
  | Fin x, Fin y =>
      if Qeq_bool y 0 then NaN else Fin (x - y * inject_Z (Qtrunc (x / y)))
  end.

End JS.

Import JS.

Coercion Fin : Q >-> number.

Infix "+" := JS.add : js_scope.
Infix "-" := JS.sub : js_scope.
Infix "*" := JS.mul : js_scope.
Infix "/" := JS.div : js_scope.
Infix "<?" := JS.ltb (at level 70) : js_scope.
Infix ">?" := JS.gtb (at level 70) : js_scope.
Infix ">=?" := JS.geb (at level 70) : js_scope.
Infix "===" := JS.strict_eq (at level 70) : js_scope.
Infix "||" := JS.logical_or : js_scope.
Infix "=j=" := JS.equiv (at level 70) : type_scope.

(** ** Math.random *)

(** The source of randomness: a tape of draws and the index of the next one. *)
Record rng : Type := { tape : nat -> Q; pos : nat }.

(** Every draw of [Math.random] lies in [[0, 1)]. *)
Definition unit_draws (g : rng) : Prop := forall i, 0 <= tape g i /\ tape g i < 1.

Definition Math_random : state rng number :=
  g <- get ;;
  put {| tape := tape g; pos := S (pos g) |} ;;
  ret (Fin (tape g (pos g))).

(** [Array.from({ length: n }, f)]: [f] is called once per index, in order. *)
Fixpoint Array_from (n : nat) (f : state rng number) : state rng (list number) :=
  match n with
  | O => ret []
  | S k => x <- f ;; xs <- Array_from k f ;; ret (x :: xs)
  end.

(** ** CryptoChart: the series simulator *)

(** The fields of [CoinData] (declared in [../types]) that the chart reads. *)
Record CoinData : Type := {
  id : string;
  symbol : string;
  name : string;
  color : string;
  basePrice : number;
  currentPrice : number
}.

Definition is_GAFR (coin : CoinData) : bool := String.eqb (id coin) "GAFR".

(** The component's state: [data] and [price] of [useState]. *)
Record chart : Type := { data : list number; price : number }.

Definition maxPoints : nat := 80.

(** [prev.slice(1)] and [prev[prev.length - 1]].  On an empty array the
    source reads the index -1 and the truncated subtraction here the
    index 0: both are out of range and read [undefined]. *)
Definition slice1 (prev : list number) : list number := tl prev.
Definition last_of (prev : list number) : option number :=
  nth_error prev (List.length prev - 1).

(** The seed of one sample of a normal coin, from a draw [r]. *)
Definition seed (base r : number) : number :=
  let variance := (base * 0.02)%js in
  (base + (r - 0.5) * variance)%js.

(** The reset effect, run when the coin changes. *)
Definition initialize (coin : CoinData) : state rng chart :=
  let base := basePrice coin in
  if is_GAFR coin then
    ret {| data := repeat (Fin 0) maxPoints; price := Fin 0 |}
  else
    initData <- Array_from maxPoints (r <- Math_random ;; ret (seed base r)) ;;
    ret {| data := initData; price := currentPrice coin |}.

(** The change of one tick of the random walk, from a draw [r]. *)
Definition tick_change (base r : number) : number :=
  let volatility := (base * 0.005)%js in
  ((r - 0.5) * volatility)%js.

(** The soft constraints of the walk, applied one after the other. *)
Definition constrain (base newPrice : number) : number :=
  let volatility := (base * 0.005)%js in
  let minBound := (base * 0.8)%js in
  let maxBound := (base * 1.2)%js in
  let newPrice := if (newPrice <? minBound)%js then (minBound + volatility)%js else newPrice in
  let newPrice := if (newPrice >? maxBound)%js then (maxBound - volatility)%js else newPrice in
  newPrice.

(** The sample of a normal coin's tick, from the window and a draw. *)
Definition next_price (coin : CoinData) (prev : list number) (r : number) : number :=
  let last := or_else (last_of prev) (basePrice coin) in
  let change := tick_change (basePrice coin) r in
  constrain (basePrice coin) (last + change)%js.

(** The sample of a GAFR tick: mostly 0, rare flicker.  The second draw is
    made only when the first one asks for a flicker. *)
Definition flicker : state rng number :=
  r1 <- Math_random ;;
  let shouldFlicker := (r1 >? 0.95)%js in
  if shouldFlicker then
    r2 <- Math_random ;;
    ret (if (r2 >? 0.5)%js then Fin 0.01 else Fin (-0.01))
  else ret (Fin 0).

(** One firing of the interval. *)
Definition advance (coin : CoinData) (st : chart) : state rng chart :=
  if is_GAFR coin then
    val <- flicker ;;
    ret {| data := slice1 (data st) ++ [val]; price := Fin 0 |}
  else
    r <- Math_random ;;
    let newPrice := next_price coin (data st) r in
    ret {| data := slice1 (data st) ++ [newPrice]; price := newPrice |}.

(** The mounted component: the selected coin and its state.  It is mounted
    with an empty window; the reset effect runs on mount and on every change
    of the coin, the interval fires in between. *)
Record view : Type := { coin : CoinData; st : chart }.

Inductive event : Type :=
| Select (c : CoinData)
| Tick.

Definition mount (c : CoinData) : state rng view :=
  s <- initialize c ;;
  ret {| coin := c; st := s |}.

Definition step (v : view) (e : event) : state rng view :=
  match e with
  | Select c => mount c
  | Tick => s <- advance (coin v) (st v) ;; ret {| coin := coin v; st := s |}
  end.

Fixpoint steps (v : view) (es : list event) : state rng view :=
  match es with
  | [] => ret v
  | e :: es' => v' <- step v e ;; steps v' es'
  end.

Definition session (c : CoinData) (es : list event) : state rng view :=
  v <- mount c ;; steps v es.

(** ** CryptoChart: the chart projector *)

(** The virtual SVG box. *)
Definition width : number := Fin 1200.
Definition height : number := Fin 400.

(** The divisor of the normalization, with its guard for flat lines. *)
Definition range (coin : CoinData) (data : list number) : number :=
  let min := Math_min data in
  let max := Math_max data in
  ((max - min) ||
   (if (basePrice coin >? 0)%js then (basePrice coin * 0.0001)%js else Fin 1))%js.

Definition normalizedY (coin : CoinData) (data : list number) (d : number) : number :=
  let min := Math_min data in
  ((d - min) / range coin data)%js.

(** A flat line is centered. *)
Definition effectiveY (coin : CoinData) (data : list number) (d : number) : number :=
  let min := Math_min data in
  let max := Math_max data in
  if (max === min)%js then Fin 0.5 else normalizedY coin data d.

(** The coordinates of the sample [d] at index [i]; the component joins
    them into the [points] attribute of the polyline. *)
Definition point (coin : CoinData) (data : list number) (i : nat) (d : number)
  : number * number :=
  let x := ((Fin (inject_Z (Z.of_nat i)) / Fin (inject_Z (Z.of_nat (maxPoints - 1)))) * width)%js in
  let drawHeight := (height * 0.7)%js in
  let padding := (height * 0.15)%js in
  let y := (height - (padding + effectiveY coin data d * drawHeight))%js in
  (x, y).



(** [price >= (data[0] || 0)]. *)
Definition isPositive (s : chart) : bool :=
  (price s >=? or_else (nth_error (data s) 0) (Fin 0))%js.

(** ** Number.prototype.toFixed *)

Fixpoint zeros (n : nat) : string :=
  match n with
  | O => EmptyString
  | S k => String "0" (zeros k)
  end.

(** The decimal digits of a natural number, ["0"] for zero. *)
Definition decimal (n : N) : string := NilEmpty.string_of_uint (N.to_uint n).

(** The integer [n] for which [n / 10^f - x] is closest to zero, the larger
    one of two; [x] is not negative. *)
Definition nearest (x : Q) (f : nat) : N :=
  Z.to_N (Qfloor (x * 10 ^ Z.of_nat f + 0.5)).

(** The digits of [x >= 0] with [f] of them after the point. *)
Definition fixed_digits (x : Q) (f : nat) : string :=
  let m := decimal (nearest x f) in
  if (f =? 0)%nat then m
  else
    let k := String.length m in
    let m := if (k <=? f)%nat then (zeros (f + 1 - k) ++ m)%string else m in
    let k := if (k <=? f)%nat then (f + 1)%nat else k in
    let a := substring 0 (k - f) m in
    let b := substring (k - f) f m in
    (a ++ "." ++ b)%string.

Section Display.

(** What [Number::toString] prints for a magnitude of [10^21] and above
    (the exponential notation of the shortest digits of the double) is the
    runtime's; it is a parameter here. *)
Variable exponential : Q -> string.

(** [x.toFixed(f)] for [0 <= f <= 100]. *)
Definition toFixed (x : number) (f : nat) : string :=
  match x with
  | NaN => "NaN"%string
  | PInf => "Infinity"%string
  | NInf => "-Infinity"%string
  | Fin q =>
      let s := if Qltb q 0 then "-"%string else EmptyString in
      let q := if Qltb q 0 then - q else q in
      let m := if Qle_bool (10 ^ 21) q then exponential q else fixed_digits q f in
      (s ++ m)%string
  end.

(** [data.length > 0 && data[0] !== 0 ? (...).toFixed(2) : "0.00"]: the
    first sample is read only from a window that has one. *)
Definition percentChange (s : chart) : string :=
  match nth_error (data s) 0 with
  | Some first =>
      if negb (first === 0)%js
      then toFixed ((price s - first) / first * 100)%js 2
      else "0.00"%string
  | None => "0.00"%string
  end.

(** Dynamic formatting based on the scale of the price. *)
Definition priceDisplay (coin : CoinData) (s : chart) : string :=
  if is_GAFR coin then "0.00"%string
  else if (price s <? 1)%js then toFixed (price s) 8 else toFixed (price s) 2.

End Display.

(** A string of decimal digits. *)
Definition is_digit (c : ascii) : bool :=
  let n := nat_of_ascii c in ((48 <=? n) && (n <=? 57))%nat.

Fixpoint all_digits (s : string) : bool :=
  match s with
  | EmptyString => true
  | String c s' => is_digit c && all_digits s'
  end.

(** A number printed in fixed-point notation with [f] digits after the
    point: an optional minus sign, at least one digit, the point, and [f]
    digits. *)
Definition fixed_point (f : nat) (s : string) : Prop :=
  exists sign a b,
    s = (sign ++ a ++ "." ++ b)%string /\
    (sign = EmptyString \/ sign = "-"%string) /\
    all_digits a = true /\ all_digits b = true /\
    (1 <= String.length a)%nat /\ String.length b = f.

(** ** PriceChart: the sparkline *)

(** [PricePoint] is declared in [../types]; the chart reads its [time] and
    [value]. *)
Record PricePoint : Type := { time : string; value : number }.

Definition axis_min (data : list PricePoint) (detailed : bool) : number :=
  let prices := map value data in
  (Math_min prices * (if detailed then Fin 0.999 else Fin 0.99))%js.

Definition axis_max (data : list PricePoint) (detailed : bool) : number :=
  let prices := map value data in
  (Math_max prices * (if detailed then Fin 1.001 else Fin 1.01))%js.

(** The domain handed to the vertical axis; [None] stands for the
    placeholder that is rendered while there is no data. *)
Definition domain (data : list PricePoint) (detailed : bool) : option (number * number) :=
  match data with
  | [] => None
  | _ => Some (axis_min data detailed, axis_max data detailed)
  end.

(** The tick labels of the vertical axis and the value of the tooltip. *)
Section Labels.

Variable exponential : Q -> string.

(** [tickFormatter] of the Y axis:
    [val.toFixed(detailed ? (val < 1 ? 6 : 2) : 2)]. *)
Definition tickFormatter (detailed : bool) (val : number) : string :=
  toFixed exponential val
    (if detailed then (if (val <? 1)%js then 6%nat else 2%nat) else 2%nat).

(** [formatter] of the tooltip: the value with six digits and its label. *)
Definition tooltip_formatter (value : number) : string * string :=
  (toFixed exponential value 6, "Price"%string).

(** The RANGE readout under the chart: two percent below and above the
    price, with six digits each. *)
Definition range_readout (s : chart) : string * string :=
  (toFixed exponential (price s * 0.98)%js 6,
   toFixed exponential (price s * 1.02)%js 6).

End Labels.

(** [timeStr.split(':')]: the pieces between the colons, one more than
    there are colons. *)
Fixpoint split_colon (s : string) : list string :=
  match s with
  | EmptyString => [EmptyString]
  | String c s' =>
      if Ascii.eqb c ":" then EmptyString :: split_colon s'
      else match split_colon s' with
           | p :: ps => String c p :: ps
           | [] => [String c EmptyString]
           end
  end.

(** [pieces.join(sep)]. *)
Fixpoint join (sep : string) (pieces : list string) : string :=
  match pieces with
  | [] => EmptyString
  | [p] => p
  | p :: ps => (p ++ sep ++ join sep ps)%string
  end.

(** [timeStr.split(':').slice(0, 2).join(':')]: the time without its
    seconds. *)
Definition formatTime (timeStr : string) : string :=
  join ":" (firstn 2 (split_colon timeStr)).

Fixpoint has_colon (s : string) : bool :=
  match s with
  | EmptyString => false
  | String c s' => Ascii.eqb c ":" || has_colon s'
  end.

(** ** SkyWayScene: the animation of the pod and the car *)

Definition speed : number := Fin 7.5.
Definition carSpeed : number := Fin 12.
Definition trackLimit : number := Fin 50.

(** [podGroup.position.x] and [carGroup.position.x] of a frame, from the
    elapsed time of the clock in seconds. *)
Definition pod_x (time : number) : number :=
  (JS.rem (time * speed) (trackLimit * 2) - trackLimit)%js.

Definition car_x (time : number) : number :=
  (trackLimit - JS.rem (time * carSpeed) (trackLimit * 2))%js.

(** ** VoxelTrade: the coin switcher *)

Inductive variant : Type := standard | exotic.

Inductive scene : Type := GafferScene | SkyPodScene | SkyWayScene.

(** The state of the wrapper. *)
Record trade : Type := {
  uiVisible : bool;
  selectedCoinId : string;
  ustcVariant : variant
}.

(** [xs.findIndex(p)]: the first index whose element satisfies [p], -1 when
    there is none. *)
Fixpoint findIndex_from {A : Type} (p : A -> bool) (i : Z) (xs : list A) : Z :=
  match xs with
  | [] => (-1)%Z
  | x :: xs' => if p x then i else findIndex_from p (i + 1)%Z xs'
  end.

Definition findIndex {A : Type} (p : A -> bool) (xs : list A) : Z :=
  findIndex_from p 0%Z xs.

(** [xs[i]] for an integer [i]: [undefined] out of range. *)
Definition at_index {A : Type} (xs : list A) (i : Z) : option A :=
  if (i <? 0)%Z then None else nth_error xs (Z.to_nat i).

Section Switcher.

(** The list of coins of [../constants]. *)
Variable INITIAL_COINS : list CoinData.

Definition has_id (i : string) (c : CoinData) : bool := String.eqb (id c) i.

(** [INITIAL_COINS.find(c => c.id === selectedCoinId) || INITIAL_COINS[0]];
    [undefined] only when there is no coin at all. *)
Definition selectedCoin (t : trade) : option CoinData :=
  match find (has_id (selectedCoinId t)) INITIAL_COINS with
  | Some c => Some c
  | None => at_index INITIAL_COINS 0
  end.

Definition select (t : trade) (i : string) : trade :=
  {| uiVisible := uiVisible t; selectedCoinId := i; ustcVariant := ustcVariant t |}.

(** The handlers of the two arrows.  The remainder is the one of
    JavaScript, of the sign of the dividend.  [None] stands for the
    TypeError of reading [id] of [undefined], which takes a list without
    coins (the remainder by its length is then NaN in the source; here as
    there the element read is [undefined]). *)
Definition handleNextCoin (t : trade) : option trade :=
  let currentIndex := findIndex (has_id (selectedCoinId t)) INITIAL_COINS in
  let nextIndex := Z.rem (currentIndex + 1) (Z.of_nat (List.length INITIAL_COINS)) in
  option_map (fun c => select t (id c)) (at_index INITIAL_COINS nextIndex).

Definition handlePrevCoin (t : trade) : option trade :=
  let currentIndex := findIndex (has_id (selectedCoinId t)) INITIAL_COINS in
  let prevIndex :=
    Z.rem (currentIndex - 1 + Z.of_nat (List.length INITIAL_COINS))
          (Z.of_nat (List.length INITIAL_COINS)) in
  option_map (fun c => select t (id c)) (at_index INITIAL_COINS prevIndex).

(** The button of a coin of the list. *)
Definition pickCoin (t : trade) (c : CoinData) : trade := select t (id c).

(** The button that swaps the view of USTC. *)
Definition toggleVariant (t : trade) : trade :=
  {| uiVisible := uiVisible t; selectedCoinId := selectedCoinId t;
     ustcVariant := match ustcVariant t with standard => exotic | exotic => standard end |}.

(** [renderScene] for the selected coin. *)
Definition renderScene (c : CoinData) (v : variant) : scene :=
  if String.eqb (id c) "GAFR" then GafferScene
  else if String.eqb (id c) "USTC" && match v with exotic => true | standard => false end
  then SkyPodScene
  else SkyWayScene.

Fixpoint iterate {A : Type} (f : A -> option A) (n : nat) (a : A) : option A :=
  match n with
  | O => Some a
  | S k => match f a with Some a' => iterate f k a' | None => None end
  end.

End Switcher.

(** The samples of a GAFR window: the flat line and its two flickers. *)
Definition flat_sample (v : number) : Prop :=
  v = Fin 0 \/ v = Fin 0.01 \/ v = Fin (-0.01).

(** ** The range of doubles *)

(** The arithmetic above is exact.  A double holds no magnitude above
    [MAX_VALUE] and no positive one below [MIN_VALUE]: a result of a
    magnitude of [2^1024 - 2^970] and more is rounded to an infinity, and a
    product or a quotient of a magnitude of [2^-1075] and less to zero.
    (A sum or a difference of two doubles is never rounded to zero.)  The
    arithmetic of [Binary64] is the exact one with these two roundings, and
    without the rounding of the last bit within the range. *)
Module Binary64.

Definition MAX_VALUE : Q := 2 ^ 1024 - 2 ^ 971.
Definition MIN_VALUE : Q := 2 ^ (-1074).

(** The least positive normal double: from here on a double is rounded in
    its last bit only. *)
Definition MIN_NORMAL : Q := 2 ^ (-1022).

Definition overflow_threshold : Q := 2 ^ 1024 - 2 ^ 970.
Definition underflow_threshold : Q := 2 ^ (-1075).

Definition overflow (q : Q) : number :=
  if Qle_bool overflow_threshold q then PInf
  else if Qle_bool q (- overflow_threshold) then NInf
  else Fin q.

Definition underflow (q : Q) : number :=
  if Qeq_bool q 0 then Fin q
  else if Qle_bool (- underflow_threshold) q && Qle_bool q underflow_threshold
       then Fin 0
       else overflow q.

Definition rounded (f : Q -> number) (a : number) : number :=
  match a with
  | Fin q => f q
  | _ => a
  end.

Definition add (a b : number) : number := rounded overflow (JS.add a b).
Definition sub (a b : number) : number := rounded overflow (JS.sub a b).
Definition mul (a b : number) : number := rounded underflow (JS.mul a b).
Definition div (a b : number) : number := rounded underflow (JS.div a b).

End Binary64.

(** The four operations of an arithmetic. *)
Record arithmetic : Type := {
  plus : number -> number -> number;
  minus : number -> number -> number;
  times : number -> number -> number;
  quotient : number -> number -> number
}.

Definition exact : arithmetic :=
  {| plus := JS.add; minus := JS.sub; times := JS.mul; quotient := JS.div |}.

Definition binary64 : arithmetic :=
  {| plus := Binary64.add; minus := Binary64.sub;
     times := Binary64.mul; quotient := Binary64.div |}.

Declare Scope arith_scope.
Delimit Scope arith_scope with arith.

Arguments plus _ (_ _)%_arith.
Arguments minus _ (_ _)%_arith.
Arguments times _ (_ _)%_arith.
Arguments quotient _ (_ _)%_arith.

(** The simulator and the projector of [CryptoChart] over an arithmetic
    [A]: over [exact] they are the definitions above, over [binary64] they
    overflow and underflow as the program does. *)
Module Over.
Section Arithmetic.

Variable A : arithmetic.

Local Notation "a + b" := (plus A a b) : arith_scope.
Local Notation "a - b" := (minus A a b) : arith_scope.
Local Notation "a * b" := (times A a b) : arith_scope.
Local Notation "a / b" := (quotient A a b) : arith_scope.

Definition seed (base r : number) : number :=
  let variance := (base * Fin 0.02)%arith in
  (base + (r - Fin 0.5) * variance)%arith.

Definition initialize (coin : CoinData) : state rng chart :=
  let base := basePrice coin in
  if is_GAFR coin then
    ret {| data := repeat (Fin 0) maxPoints; price := Fin 0 |}
  else
    initData <- Array_from maxPoints (r <- Math_random ;; ret (seed base r)) ;;
    ret {| data := initData; price := currentPrice coin |}.

Definition tick_change (base r : number) : number :=
  let volatility := (base * Fin 0.005)%arith in
  ((r - Fin 0.5) * volatility)%arith.

Definition constrain (base newPrice : number) : number :=
  let volatility := (base * Fin 0.005)%arith in
  let minBound := (base * Fin 0.8)%arith in
  let maxBound := (base * Fin 1.2)%arith in
  let newPrice := if (newPrice <? minBound)%js then (minBound + volatility)%arith else newPrice in
  let newPrice := if (newPrice >? maxBound)%js then (maxBound - volatility)%arith else newPrice in
  newPrice.

Definition next_price (coin : CoinData) (prev : list number) (r : number) : number :=
  let last := or_else (last_of prev) (basePrice coin) in
  let change := tick_change (basePrice coin) r in
  constrain (basePrice coin) (last + change)%arith.

Definition advance (coin : CoinData) (st : chart) : state rng chart :=
  if is_GAFR coin then
    val <- flicker ;;
    ret {| data := slice1 (data st) ++ [val]; price := Fin 0 |}
  else
    r <- Math_random ;;
    let newPrice := next_price coin (data st) r in
    ret {| data := slice1 (data st) ++ [newPrice]; price := newPrice |}.

Definition mount (c : CoinData) : state rng view :=
  s <- initialize c ;;
  ret {| coin := c; st := s |}.

Definition step (v : view) (e : event) : state rng view :=
  match e with
  | Select c => mount c
  | Tick => s <- advance (coin v) (st v) ;; ret {| coin := coin v; st := s |}
  end.

Fixpoint steps (v : view) (es : list event) : state rng view :=
  match es with
  | [] => ret v
  | e :: es' => v' <- step v e ;; steps v' es'
  end.

Definition session (c : CoinData) (es : list event) : state rng view :=
  v <- mount c ;; steps v es.

Definition range (coin : CoinData) (data : list number) : number :=
  let min := Math_min data in
  let max := Math_max data in
  JS.logical_or (max - min)%arith
    (if (basePrice coin >? 0)%js then (basePrice coin * Fin 0.0001)%arith else Fin 1).

Definition normalizedY (coin : CoinData) (data : list number) (d : number) : number :=
  let min := Math_min data in
  ((d - min) / range coin data)%arith.

Definition effectiveY (coin : CoinData) (data : list number) (d : number) : number :=
  let min := Math_min data in
  let max := Math_max data in
  if (max === min)%js then Fin 0.5 else normalizedY coin data d.

Definition point (coin : CoinData) (data : list number) (i : nat) (d : number)
  : number * number :=
  let x := ((Fin (inject_Z (Z.of_nat i)) / Fin (inject_Z (Z.of_nat (maxPoints - 1)))) * width)%arith in
  let drawHeight := (height * Fin 0.7)%arith in
  let padding := (height * Fin 0.15)%arith in
  let y := (height - (padding + effectiveY coin data d * drawHeight))%arith in
  (x, y).

End Arithmetic.
End Over.

(** ** Sample inputs *)

Definition btc : CoinData :=
  {| id := "BTC"; symbol := "BTC"; name := "Bitcoin"; color := "#F7931A";
     basePrice := Fin 100; currentPrice := Fin 100 |}.

Definition gafr : CoinData :=
  {| id := "GAFR"; symbol := "GAFR"; name := "Gaffer"; color := "#00B2B2";
     basePrice := Fin 0; currentPrice := Fin 0 |}.

(** A tape whose draws are all [r]. *)
Definition constant_tape (r : Q) : rng := {| tape := fun _ => r; pos := 0 |}.

(** A tape that asks for a flicker and then for the negative sign. *)
Definition flicker_tape : rng :=
  {| tape := fun i => match i with O => 0.97 | _ => 0.2 end; pos := 0 |}.

Definition ustc : CoinData :=
  {| id := "USTC"; symbol := "USTC"; name := "TerraClassicUSD"; color := "#5493F7";
     basePrice := Fin 0.02; currentPrice := Fin 0.02 |}.

(** A list of coins with distinct ids. *)
Definition sample_coins : list CoinData := [btc; ustc; gafr].

Definition sample_trade : trade :=
  {| uiVisible := true; selectedCoinId := "GAFR"; ustcVariant := standard |}.

(** A coin whose base price is a double near the largest one. *)
Definition large_coin : CoinData :=
  {| id := "BIG"; symbol := "BIG"; name := "Big"; color := "#FFFFFF";
     basePrice := Fin (17 * 10 ^ 307); currentPrice := Fin (17 * 10 ^ 307) |}.

(** A coin whose base price is the least positive double. *)
Definition tiny_coin : CoinData :=
  {| id := "TINY"; symbol := "TINY"; name := "Tiny"; color := "#FFFFFF";
     basePrice := Fin Binary64.MIN_VALUE; currentPrice := Fin Binary64.MIN_VALUE |}.

(** A window whose span is beyond the largest double. *)
Definition wide_window : list number := [Fin (- 10 ^ 308); Fin (10 ^ 308)].

(** A stand-in for the exponential notation of the runtime. *)
Definition sample_exponential : Q -> string := fun _ => "1e+21"%string.

(** A sparkline of three points. *)
Definition sample_sparkline : list PricePoint :=
  [ {| time := "10:00:00"; value := Fin 101 |};
    {| time := "10:00:01"; value := Fin 99 |};
    {| time := "10:00:02"; value := Fin 100 |} ].

Definition within_band (b : Q) (v : number) : Prop :=
  exists s, v = Fin s /\ 0.8 * b <= s /\ s <= 1.2 * b.

(** * Properties *)

(** ** Rational tests *)

Lemma Qltb_lt x y : Qltb x y = true <-> x < y.
Proof.
  unfold Qltb. rewrite negb_true_iff. split.
  - intros H. apply Qnot_le_lt. intros L.
    apply Qle_bool_iff in L. congruence.
  - intros H. destruct (Qle_bool y x) eqn:E; [|reflexivity].
    apply Qle_bool_iff in E. lra.
Qed.

Lemma Qltb_ge x y : Qltb x y = false <-> y <= x.
Proof.
  unfold Qltb. rewrite negb_false_iff. apply Qle_bool_iff.
Qed.

(** Case analysis on the rational tests of a goal, each turned into the
    inequality it decides. *)
Ltac q_tests :=
  repeat match goal with
  | |- context [Qltb ?x ?y] =>
      let E := fresh "E" in
      destruct (Qltb x y) eqn:E;
      [apply Qltb_lt in E | apply Qltb_ge in E]
  | |- context [Qeq_bool ?x ?y] =>
      let E := fresh "E" in
      destruct (Qeq_bool x y) eqn:E;
      [apply Qeq_bool_iff in E | apply Qeq_bool_neq in E]
  end.

(** ** Running the effects *)

Lemma run_bind {A B} (m : state rng A) (k : A -> state rng B) g :
  runState (bind m k) g = runState (k (fst (runState m g))) (snd (runState m g)).
Proof. cbn. destruct (runState m g). reflexivity. Qed.

Lemma run_ret {A} (a : A) (g : rng) : runState (ret a) g = (a, g).
Proof. reflexivity. Qed.

Lemma run_Math_random g :
  runState Math_random g = (Fin (tape g (pos g)), {| tape := tape g; pos := S (pos g) |}).
Proof. reflexivity. Qed.

Lemma run_advance_normal c s g :
  is_GAFR c = false ->
  runState (advance c s) g =
    (let newPrice := next_price c (data s) (Fin (tape g (pos g))) in
     {| data := slice1 (data s) ++ [newPrice]; price := newPrice |},
     {| tape := tape g; pos := S (pos g) |}).
Proof. intros H. unfold advance. rewrite H. reflexivity. Qed.

Lemma run_advance_GAFR c s g :
  is_GAFR c = true ->
  runState (advance c s) g =
    (let (val, g') := runState flicker g in
     ({| data := slice1 (data s) ++ [val]; price := Fin 0 |}, g')).
Proof. intros H. unfold advance. rewrite H. cbn. destruct (runState flicker g); reflexivity. Qed.

(** ** The random walk of a normal coin *)

Lemma constrain_within_band (b : Q) (p : number) :
  0 <= b -> p <> NaN -> within_band b (constrain (Fin b) p).
Proof.
  intros Hb Hp. unfold within_band, constrain.
  destruct p as [q| | |]; try congruence; cbn.
  - q_tests; eexists; (split; [reflexivity|]); cbn in *; lra.
  - q_tests; eexists; (split; [reflexivity|]); cbn in *; lra.
  - q_tests; eexists; (split; [reflexivity|]); cbn in *; lra.
Qed.

Lemma or_else_not_NaN (v : option number) (d : number) :
  d <> NaN -> or_else v d <> NaN.
Proof.
  intros Hd. destruct v as [[q| | |]|]; cbn; try congruence.
  unfold logical_or. cbn. destruct (negb (Qeq_bool q 0)); congruence.
Qed.


Lemma is_GAFR_true c : is_GAFR c = true <-> id c = "GAFR"%string.
Proof. apply String.eqb_eq. Qed.

Lemma is_GAFR_false c : is_GAFR c = false <-> id c <> "GAFR"%string.
Proof. apply String.eqb_neq. Qed.




(** ** Seeding the window *)

Lemma run_Array_from (h : number -> number) (n : nat) (g : rng) :
  runState (Array_from n (r <- Math_random ;; ret (h r))) g =
    (map (fun i => h (Fin (tape g (pos g + i)%nat))) (seq 0 n),
     {| tape := tape g; pos := (pos g + n)%nat |}).
Proof.
  revert g. induction n as [|n IH]; intros g.
  - cbn. rewrite Nat.add_0_r. destruct g; reflexivity.
  - cbn [Array_from]. rewrite run_bind. rewrite (run_bind Math_random).
    rewrite run_Math_random. cbn [fst snd]. rewrite run_ret. cbn [fst snd].
    rewrite run_bind, IH. cbn [fst snd tape pos]. rewrite run_ret.
    cbn [seq map]. rewrite Nat.add_0_r, <- seq_shift, map_map.
    replace (S (pos g) + n)%nat with (pos g + S n)%nat by lia.
    f_equal. f_equal.
    apply map_ext. intros i.
    replace (S (pos g) + i)%nat with (pos g + S i)%nat by lia. reflexivity.
Qed.


Lemma run_initialize_normal (c : CoinData) (g : rng) :
  is_GAFR c = false ->
  runState (initialize c) g =
    ({| data := map (fun i => seed (basePrice c) (Fin (tape g (pos g + i)%nat)))
                    (seq 0 maxPoints);
        price := currentPrice c |},
     {| tape := tape g; pos := (pos g + maxPoints)%nat |}).
Proof.
  intros H. unfold initialize. rewrite H, run_bind, run_Array_from.
  reflexivity.
Qed.

Lemma run_initialize_GAFR (c : CoinData) (g : rng) :
  is_GAFR c = true ->
  runState (initialize c) g =
    ({| data := repeat (Fin 0) maxPoints; price := Fin 0 |}, g).
Proof. intros H. unfold initialize. rewrite H. reflexivity. Qed.


(** ** The fallback on a falsy last sample *)

(** C10.  For a coin other than GAFR and a window whose most recent
    sample is zero, the sample that [advance] appends is the constrained
    [basePrice + change]: the walk restarts from the base price, as it does
    from an empty window. *)
Theorem advance_from_zero_sample (c : CoinData) (s : chart) (z : Q) (g : rng) :
  id c <> "GAFR"%string ->
  last_of (data s) = Some (Fin z) ->
  z == 0 ->
  data (fst (runState (advance c s) g)) =
    slice1 (data s) ++
    [constrain (basePrice c)
       (basePrice c + tick_change (basePrice c) (Fin (tape g (pos g))))%js].
Proof.
  intros Hid Hl Hz. apply is_GAFR_false in Hid.
  rewrite (run_advance_normal _ _ _ Hid). cbn [fst data].
  unfold next_price. rewrite Hl. cbn [or_else]. unfold logical_or. cbn [truthy].
  apply Qeq_bool_iff in Hz. rewrite Hz. reflexivity.
Qed.

Lemma advance_from_zero_sample_witness :
  last_of [Fin 90; Fin 0] = Some (Fin 0) /\
  data (fst (runState (advance btc {| data := [Fin 90; Fin 0]; price := Fin 0 |})
               (constant_tape 0.5))) =
    slice1 [Fin 90; Fin 0] ++
    [constrain (Fin 100) (Fin 100 + tick_change (Fin 100) (Fin 0.5))%js].
Proof.
  split; [reflexivity|].
  apply (advance_from_zero_sample btc
           {| data := [Fin 90; Fin 0]; price := Fin 0 |} 0 (constant_tape 0.5)).
  - discriminate.
  - reflexivity.
  - reflexivity.
Defined.

(** With a base price of 100 and the middle draw, the sample after a zero
    is the base price; a walk continued from the zero itself would have
    been reset to the lower bound plus the volatility. *)
Example after_zero_sample_restarts :
  next_price btc [Fin 90; Fin 0] (Fin 0.5) =j= Fin 100 /\
  constrain (Fin 100) (Fin 0 + tick_change (Fin 100) (Fin 0.5))%js =j= Fin 80.5.
Proof. split; vm_compute; reflexivity. Qed.

Lemma advance_from_empty (c : CoinData) (s : chart) (g : rng) :
  is_GAFR c = false ->
  data s = [] ->
  data (fst (runState (advance c s) g)) =
    [constrain (basePrice c)
       (basePrice c + tick_change (basePrice c) (Fin (tape g (pos g))))%js].
Proof.
  intros Hid Hd. rewrite (run_advance_normal _ _ _ Hid), Hd. reflexivity.
Qed.

(** ** The flatline of GAFR *)

Lemma run_flicker (g : rng) :
  runState flicker g =
    if Qltb 0.95 (tape g (pos g)) then
      (if Qltb 0.5 (tape g (S (pos g))) then Fin 0.01 else Fin (-0.01),
       {| tape := tape g; pos := S (S (pos g)) |})
    else (Fin 0, {| tape := tape g; pos := S (pos g) |}).
Proof.
  unfold flicker. rewrite run_bind, run_Math_random. cbn [fst snd].
  change (Fin (tape g (pos g)) >? Fin 0.95)%js with (Qltb 0.95 (tape g (pos g))).
  destruct (Qltb 0.95 (tape g (pos g))); [|reflexivity].
  rewrite run_bind, run_Math_random. reflexivity.
Qed.

(** C8.  A tick of GAFR appends one sample and shows the price 0.  The
    sample is 0 exactly when the first draw is at most 0.95 (and no second
    draw is made); otherwise it is 0.01 when the second draw exceeds 0.5
    and -0.01 when it does not. *)
Theorem advance_GAFR_flicker (c : CoinData) (s : chart) (g : rng) :
  id c = "GAFR"%string ->
  let r1 := tape g (pos g) in
  let r2 := tape g (S (pos g)) in
  let s' := fst (runState (advance c s) g) in
  let g' := snd (runState (advance c s) g) in
  price s' = Fin 0 /\
  exists val,
    data s' = slice1 (data s) ++ [val] /\
    (val =j= Fin 0 <-> r1 <= 0.95) /\
    (r1 <= 0.95 -> val = Fin 0 /\ pos g' = S (pos g)) /\
    (0.95 < r1 -> 0.5 < r2 -> val = Fin 0.01 /\ pos g' = S (S (pos g))) /\
    (0.95 < r1 -> r2 <= 0.5 -> val = Fin (-0.01) /\ pos g' = S (S (pos g))).
Proof.
  intros Hid r1 r2 s' g'. apply is_GAFR_true in Hid.
  subst s' g'. rewrite (run_advance_GAFR _ _ _ Hid), run_flicker.
  fold r1 r2.
  destruct (Qltb 0.95 r1) eqn:E1;
    [apply Qltb_lt in E1 | apply Qltb_ge in E1].
  - destruct (Qltb 0.5 r2) eqn:E2;
      [apply Qltb_lt in E2 | apply Qltb_ge in E2];
      cbn [fst snd data price pos]; (split; [reflexivity|]);
      eexists; (split; [reflexivity|]); cbn;
      repeat split; intros; try lra; try (exfalso; lra).
  - cbn [fst snd data price pos]. split; [reflexivity|].
    eexists; (split; [reflexivity|]); cbn;
      repeat split; intros; try lra; try (exfalso; lra).
Qed.

Lemma advance_GAFR_flicker_witness :
  id gafr = "GAFR"%string /\
  let g := flicker_tape in
  let s := {| data := [Fin 0; Fin 0]; price := Fin 0 |} in
  let r1 := tape g (pos g) in
  let r2 := tape g (S (pos g)) in
  let s' := fst (runState (advance gafr s) g) in
  let g' := snd (runState (advance gafr s) g) in
  price s' = Fin 0 /\
  exists val,
    data s' = slice1 (data s) ++ [val] /\
    (val =j= Fin 0 <-> r1 <= 0.95) /\
    (r1 <= 0.95 -> val = Fin 0 /\ pos g' = S (pos g)) /\
    (0.95 < r1 -> 0.5 < r2 -> val = Fin 0.01 /\ pos g' = S (S (pos g))) /\
    (0.95 < r1 -> r2 <= 0.5 -> val = Fin (-0.01) /\ pos g' = S (S (pos g))).
Proof.
  split; [reflexivity|]. intros g s.
  apply (advance_GAFR_flicker gafr s g). reflexivity.
Defined.

(** ** The length of the window *)

Lemma length_slide (prev : list number) (v : number) :
  prev <> [] -> List.length (slice1 prev ++ [v]) = List.length prev.
Proof.
  intros H. destruct prev as [|x xs]; [congruence|].
  cbn. rewrite length_app. cbn. lia.
Qed.

Lemma advance_slides (c : CoinData) (s : chart) (g : rng) :
  exists v, data (fst (runState (advance c s) g)) = slice1 (data s) ++ [v].
Proof.
  destruct (is_GAFR c) eqn:E.
  - rewrite (run_advance_GAFR _ _ _ E).
    destruct (runState flicker g) as [val g']. eexists. reflexivity.
  - rewrite (run_advance_normal _ _ _ E). eexists. reflexivity.
Qed.

Lemma initialize_length (c : CoinData) (g : rng) :
  List.length (data (fst (runState (initialize c) g))) = maxPoints.
Proof.
  destruct (is_GAFR c) eqn:E.
  - rewrite (run_initialize_GAFR _ _ E). apply repeat_length.
  - rewrite (run_initialize_normal _ _ E). cbn [fst data].
    rewrite length_map, length_seq. reflexivity.
Qed.

Lemma advance_length (c : CoinData) (s : chart) (g : rng) :
  List.length (data s) = maxPoints ->
  List.length (data (fst (runState (advance c s) g))) = maxPoints.
Proof.
  intros H. destruct (advance_slides c s g) as [v ->].
  rewrite length_slide; [assumption|].
  intros E. rewrite E in H. discriminate.
Qed.

Lemma step_length (v : view) (e : event) (g : rng) :
  List.length (data (st v)) = maxPoints ->
  List.length (data (st (fst (runState (step v e) g)))) = maxPoints.
Proof.
  intros H. destruct e as [c|]; cbn [step].
  - unfold mount. rewrite run_bind, run_ret. cbn [fst st].
    apply initialize_length.
  - rewrite run_bind, run_ret. cbn [fst st].
    apply advance_length, H.
Qed.

Lemma steps_length (es : list event) (v : view) (g : rng) :
  List.length (data (st v)) = maxPoints ->
  List.length (data (st (fst (runState (steps v es) g)))) = maxPoints.
Proof.
  revert v g. induction es as [|e es IH]; intros v g H; cbn [steps].
  - rewrite run_ret. exact H.
  - rewrite run_bind. apply IH, step_length, H.
Qed.

(** C4.  The window holds [maxPoints] = 80 samples after [initialize], for
    GAFR and for every other coin; each [advance] drops the oldest sample
    and appends one; and the window of a mounted chart holds 80 samples
    after every sequence of ticks and coin selections. *)
Theorem window_length_invariant :
  maxPoints = 80%nat /\
  (forall c g, List.length (data (fst (runState (initialize c) g))) = maxPoints) /\
  (forall c s g, exists v,
     data (fst (runState (advance c s) g)) = tl (data s) ++ [v]) /\
  (forall c es g,
     List.length (data (st (fst (runState (session c es) g)))) = maxPoints).
Proof.
  split; [reflexivity|].
  split; [exact initialize_length|].
  split; [exact advance_slides|].
  intros c es g. unfold session, mount.
  rewrite run_bind, run_bind, run_ret. cbn [fst snd].
  apply steps_length. cbn [st]. apply initialize_length.
Qed.

(** ** Minimum and maximum of a window *)

Lemma Math_min_finite (xs : list number) :
  Forall is_finite xs -> xs <> [] ->
  exists m, Math_min xs = Fin m /\ In (Fin m) xs /\
            forall q, In (Fin q) xs -> m <= q.
Proof.
  induction xs as [|x xs IH]; intros Hf Hne; [congruence|].
  inversion Hf as [|? ? [q ->] Hf']; subst.
  destruct xs as [|y ys].
  - exists q. cbn. repeat split; [now left|].
    intros q' [E|[]]. injection E as ->. lra.
  - destruct (IH Hf') as (m & Hm & Hin & Hle); [discriminate|].
    change (Math_min (Fin q :: y :: ys)) with (min2 (Fin q) (Math_min (y :: ys))).
    rewrite Hm. unfold min2, ltb.
    destruct (Qltb m q) eqn:E; [apply Qltb_lt in E | apply Qltb_ge in E].
    + exists m. repeat split; [now right|].
      intros q' [E'|Hq']; [injection E' as <-; lra | now apply Hle].
    + exists q. repeat split; [now left|].
      intros q' [E'|Hq']; [injection E' as <-; lra|].
      specialize (Hle _ Hq'). lra.
Qed.

Lemma Math_max_finite (xs : list number) :
  Forall is_finite xs -> xs <> [] ->
  exists m, Math_max xs = Fin m /\ In (Fin m) xs /\
            forall q, In (Fin q) xs -> q <= m.
Proof.
  induction xs as [|x xs IH]; intros Hf Hne; [congruence|].
  inversion Hf as [|? ? [q ->] Hf']; subst.
  destruct xs as [|y ys].
  - exists q. cbn. repeat split; [now left|].
    intros q' [E|[]]. injection E as ->. lra.
  - destruct (IH Hf') as (m & Hm & Hin & Hle); [discriminate|].
    change (Math_max (Fin q :: y :: ys)) with (max2 (Fin q) (Math_max (y :: ys))).
    rewrite Hm. unfold max2, ltb.
    destruct (Qltb q m) eqn:E; [apply Qltb_lt in E | apply Qltb_ge in E].
    + exists m. repeat split; [now right|].
      intros q' [E'|Hq']; [injection E' as <-; lra | now apply Hle].
    + exists q. repeat split; [now left|].
      intros q' [E'|Hq']; [injection E' as <-; lra|].
      specialize (Hle _ Hq'). lra.
Qed.


Lemma div_Fin (x y : Q) : ~ y == 0 -> (Fin x / Fin y)%js = Fin (x / y).
Proof.
  intros H. cbn. destruct (Qeq_bool y 0) eqn:E; [|reflexivity].
  apply Qeq_bool_iff in E. contradiction.
Qed.

(** ** Normalization *)

(** The guard at work: a flat window over a positive base price, a flat
    window over a base price of zero, and a window with a span. *)
Example range_guard_examples :
  range btc [Fin 7; Fin 7] =j= Fin 0.01 /\
  range gafr [Fin 0; Fin 0] =j= Fin 1 /\
  range btc [Fin 7; Fin 9] =j= Fin 2 /\
  map (effectiveY btc [Fin 7; Fin 7]) [Fin 7; Fin 7] = [Fin 0.5; Fin 0.5].
Proof. repeat split; vm_compute; reflexivity. Qed.

(** ** Fixed-point notation *)

Lemma length_append (s1 s2 : string) :
  String.length (s1 ++ s2) = (String.length s1 + String.length s2)%nat.
Proof. induction s1 as [|c s1 IH]; cbn; [reflexivity | now rewrite IH]. Qed.

Lemma length_zeros (n : nat) : String.length (zeros n) = n.
Proof. induction n as [|n IH]; cbn; [reflexivity | now rewrite IH]. Qed.

Lemma length_substring (s : string) (n m : nat) :
  (n + m <= String.length s)%nat -> String.length (substring n m s) = m.
Proof.
  revert n m. induction s as [|c s IH]; intros n m H; cbn in H.
  - assert (n = 0%nat) by lia. assert (m = 0%nat) by lia. subst. reflexivity.
  - destruct n as [|n]; cbn.
    + destruct m as [|m]; [reflexivity|]. cbn. f_equal. apply IH. lia.
    + apply IH. lia.
Qed.

Lemma all_digits_append (s1 s2 : string) :
  all_digits s1 = true -> all_digits s2 = true -> all_digits (s1 ++ s2) = true.
Proof.
  intros H1 H2. induction s1 as [|c s1 IH]; cbn in *; [assumption|].
  apply andb_true_iff in H1. destruct H1 as [Hc H1].
  rewrite Hc. cbn. auto.
Qed.

Lemma all_digits_zeros (n : nat) : all_digits (zeros n) = true.
Proof. induction n as [|n IH]; [reflexivity | exact IH]. Qed.

Lemma all_digits_substring (s : string) (n m : nat) :
  all_digits s = true -> all_digits (substring n m s) = true.
Proof.
  revert n m. induction s as [|c s IH]; intros n m H.
  - destruct n, m; reflexivity.
  - cbn in H. apply andb_true_iff in H. destruct H as [Hc H].
    destruct n as [|n]; cbn.
    + destruct m as [|m]; [reflexivity|]. cbn. rewrite Hc. cbn. auto.
    + auto.
Qed.

Lemma all_digits_uint (d : Decimal.uint) :
  all_digits (NilEmpty.string_of_uint d) = true.
Proof. induction d; cbn; auto. Qed.

Lemma all_digits_decimal (n : N) : all_digits (decimal n) = true.
Proof. apply all_digits_uint. Qed.

(** The digits of [fixed_digits]: at least one before the point and
    exactly [f] after it. *)
Lemma fixed_digits_shape (x : Q) (f : nat) :
  f <> 0%nat ->
  exists a b,
    fixed_digits x f = (a ++ "." ++ b)%string /\
    all_digits a = true /\ all_digits b = true /\
    (1 <= String.length a)%nat /\ String.length b = f.
Proof.
  intros Hf. unfold fixed_digits.
  apply Nat.eqb_neq in Hf. rewrite Hf. apply Nat.eqb_neq in Hf.
  set (m := decimal (nearest x f)).
  assert (Hm : all_digits m = true) by apply all_digits_decimal.
  destruct (Nat.leb_spec (String.length m) f) as [Hk|Hk].
  - set (m' := (zeros (f + 1 - String.length m) ++ m)%string).
    assert (Hl : String.length m' = (f + 1)%nat)
      by (unfold m'; rewrite length_append, length_zeros; lia).
    assert (Hd : all_digits m' = true)
      by (apply all_digits_append; [apply all_digits_zeros | assumption]).
    do 2 eexists. split; [reflexivity|].
    repeat split; try (apply all_digits_substring; assumption).
    + rewrite length_substring; lia.
    + rewrite length_substring; lia.
  - do 2 eexists. split; [reflexivity|].
    repeat split; try (apply all_digits_substring; assumption).
    + rewrite length_substring; lia.
    + rewrite length_substring; lia.
Qed.

(** The integer of [nearest] is the one closest to [x * 10^f], the larger
    one of two. *)
Lemma nearest_closest (x : Q) (f : nat) :
  0 <= x ->
  let n := inject_Z (Z.of_N (nearest x f)) in
  x * 10 ^ Z.of_nat f - 0.5 < n /\ n <= x * 10 ^ Z.of_nat f + 0.5.
Proof.
  intros Hx n. subst n. unfold nearest.
  set (y := x * 10 ^ Z.of_nat f).
  assert (Hp : 0 < 10 ^ Z.of_nat f) by (apply Qpower_0_lt; lra).
  assert (Hy : 0 <= y) by (unfold y; apply Qmult_le_0_compat; lra).
  clearbody y. clear Hp.
  assert (H0 : (0 <= Qfloor (y + 0.5))%Z).
  { rewrite <- (Qfloor_Z 0). apply Qfloor_resp_le.
    change (inject_Z 0) with 0. lra. }
  rewrite Z2N.id by assumption.
  pose proof (Qfloor_le (y + 0.5)) as Hle.
  pose proof (Qlt_floor (y + 0.5)) as Hlt.
  rewrite inject_Z_plus in Hlt. change (inject_Z 1) with 1 in Hlt.
  split; lra.
Qed.

Section DisplayProperties.

Variable exponential : Q -> string.

Lemma toFixed_fixed_point (q : Q) (f : nat) :
  f <> 0%nat -> Qabs q < 10 ^ 21 ->
  fixed_point f (toFixed exponential (Fin q) f).
Proof.
  intros Hf Hq. unfold toFixed.
  set (T := 10 ^ 21) in *. clearbody T.
  destruct (Qltb q 0) eqn:E; [apply Qltb_lt in E | apply Qltb_ge in E].
  - rewrite Qabs_neg in Hq by lra.
    destruct (Qle_bool T (- q)) eqn:ET; [apply Qle_bool_iff in ET; lra|].
    destruct (fixed_digits_shape (- q) f Hf) as (a & b & -> & Ha & Hb & Hla & Hlb).
    exists "-"%string, a, b. repeat split; auto.
  - rewrite Qabs_pos in Hq by lra.
    destruct (Qle_bool T q) eqn:ET; [apply Qle_bool_iff in ET; lra|].
    destruct (fixed_digits_shape q f Hf) as (a & b & -> & Ha & Hb & Hla & Hlb).
    exists EmptyString, a, b. repeat split; auto.
Qed.

(** C6.  Over a window whose first sample is not zero, [percentChange]
    is [(price - first) / first * 100] printed by [toFixed(2)]: for
    rationals, the quotient itself with two digits after the point.  It is
    ["0.00"] when the first sample is zero and when the window is empty.
    A price of 150 over a window that starts at 100 gives ["50.00"]. *)
Theorem percentChange_rule (s : chart) :
  (forall first rest,
     data s = first :: rest -> (first === 0)%js = false ->
     percentChange exponential s =
       toFixed exponential ((price s - first) / first * 100)%js 2) /\
  (forall p first rest,
     price s = Fin p -> data s = Fin first :: rest -> ~ first == 0 ->
     percentChange exponential s =
       toFixed exponential (Fin ((p - first) / first * 100)) 2 /\
     (Qabs ((p - first) / first * 100) < 10 ^ 21 ->
      fixed_point 2 (percentChange exponential s))) /\
  (forall first rest,
     data s = first :: rest -> (first === 0)%js = true ->
     percentChange exponential s = "0.00"%string) /\
  (data s = [] -> percentChange exponential s = "0.00"%string) /\
  percentChange exponential {| data := [Fin 100; Fin 150]; price := Fin 150 |}
    = "50.00"%string.
Proof.
  assert (Hgen : forall first rest,
     data s = first :: rest -> (first === 0)%js = false ->
     percentChange exponential s =
       toFixed exponential ((price s - first) / first * 100)%js 2).
  { intros first rest Hd Hz. unfold percentChange.
    rewrite Hd. cbn [nth_error]. rewrite Hz. reflexivity. }
  split; [exact Hgen|].
  split; [|split; [|split]].
  - intros p first rest Hp Hd Hz.
    assert (E : percentChange exponential s =
                toFixed exponential (Fin ((p - first) / first * 100)) 2).
    { rewrite (Hgen _ _ Hd).
      - rewrite Hp. cbn [sub neg add]. rewrite (div_Fin _ _ Hz). reflexivity.
      - cbn [strict_eq]. destruct (Qeq_bool first 0) eqn:E; [|reflexivity].
        apply Qeq_bool_iff in E. contradiction. }
    split; [exact E|].
    intros Hm. rewrite E. apply toFixed_fixed_point; [discriminate | exact Hm].
  - intros first rest Hd Hz. unfold percentChange.
    rewrite Hd. cbn [nth_error]. rewrite Hz. reflexivity.
  - intros Hd. unfold percentChange. rewrite Hd. reflexivity.
  - vm_compute. reflexivity.
Qed.

(** C7.  The price readout of GAFR is ["0.00"] whatever the price.  For
    every other coin it is [toFixed(8)] of a price below 1 and
    [toFixed(2)] of any other price, so that a rational price is printed
    with eight digits after the point below 1 and with two from 1 on:
    0.5 reads ["0.50000000"] and 1500 reads ["1500.00"]. *)
Theorem priceDisplay_rule (c : CoinData) (s : chart) :
  (id c = "GAFR"%string -> priceDisplay exponential c s = "0.00"%string) /\
  (id c <> "GAFR"%string -> (price s <? 1)%js = true ->
     priceDisplay exponential c s = toFixed exponential (price s) 8) /\
  (id c <> "GAFR"%string -> (price s <? 1)%js = false ->
     priceDisplay exponential c s = toFixed exponential (price s) 2) /\
  (id c <> "GAFR"%string -> forall q, price s = Fin q ->
     (q < 1 -> - (10 ^ 21) < q -> fixed_point 8 (priceDisplay exponential c s)) /\
     (1 <= q -> q < 10 ^ 21 -> fixed_point 2 (priceDisplay exponential c s))) /\
  priceDisplay exponential btc {| data := []; price := Fin 0.5 |}
    = "0.50000000"%string /\
  priceDisplay exponential btc {| data := []; price := Fin 1500 |}
    = "1500.00"%string /\
  priceDisplay exponential gafr {| data := []; price := Fin 1500 |}
    = "0.00"%string.
Proof.
  split; [|split; [|split; [|split]]].
  - intros Hid. apply is_GAFR_true in Hid. unfold priceDisplay.
    rewrite Hid. reflexivity.
  - intros Hid Hlt. apply is_GAFR_false in Hid. unfold priceDisplay.
    rewrite Hid, Hlt. reflexivity.
  - intros Hid Hlt. apply is_GAFR_false in Hid. unfold priceDisplay.
    rewrite Hid, Hlt. reflexivity.
  - intros Hid q Hq. apply is_GAFR_false in Hid. unfold priceDisplay.
    rewrite Hid, Hq. cbn [ltb].
    set (T := 10 ^ 21). assert (HT : 1 < T) by reflexivity.
    split; intros H1 H2.
    + apply Qltb_lt in H1. rewrite H1. apply Qltb_lt in H1.
      apply toFixed_fixed_point; [discriminate|].
      change (Qabs q < T). clearbody T. apply Qabs_case; intros; lra.
    + apply Qltb_ge in H1. rewrite H1. apply Qltb_ge in H1.
      apply toFixed_fixed_point; [discriminate|].
      change (Qabs q < T). clearbody T. apply Qabs_case; intros; lra.
  - repeat split; vm_compute; reflexivity.
Qed.

End DisplayProperties.

Lemma percentChange_rule_witness :
  ~ 100 == 0 /\
  percentChange sample_exponential {| data := [Fin 100; Fin 150]; price := Fin 150 |} =
    toFixed sample_exponential (Fin ((150 - 100) / 100 * 100)) 2 /\
  fixed_point 2
    (percentChange sample_exponential {| data := [Fin 100; Fin 150]; price := Fin 150 |}).
Proof.
  assert (Hz : ~ 100 == 0) by (intros E; discriminate E).
  assert (Hm : Qabs ((150 - 100) / 100 * 100) < 10 ^ 21) by reflexivity.
  destruct (proj1 (proj2 (percentChange_rule sample_exponential
                            {| data := [Fin 100; Fin 150]; price := Fin 150 |}))
              150 100 [Fin 150] eq_refl eq_refl Hz) as [E F].
  split; [exact Hz|]. split; [exact E | exact (F Hm)].
Defined.

Lemma priceDisplay_rule_witness :
  id gafr = "GAFR"%string /\
  priceDisplay sample_exponential gafr {| data := []; price := Fin 1500 |}
    = "0.00"%string /\
  id btc <> "GAFR"%string /\
  priceDisplay sample_exponential btc {| data := []; price := Fin 0.5 |}
    = toFixed sample_exponential (Fin 0.5) 8 /\
  fixed_point 2
    (priceDisplay sample_exponential btc {| data := []; price := Fin 1500 |}).
Proof.
  assert (Hbtc : id btc <> "GAFR"%string) by discriminate.
  split; [reflexivity|].
  split.
  { apply (proj1 (priceDisplay_rule sample_exponential gafr
                    {| data := []; price := Fin 1500 |})).
    reflexivity. }
  split; [exact Hbtc|].
  split.
  { apply (proj1 (proj2 (priceDisplay_rule sample_exponential btc
                           {| data := []; price := Fin 0.5 |}))).
    - exact Hbtc.
    - reflexivity. }
  apply (proj2 (proj1 (proj2 (proj2 (proj2
           (priceDisplay_rule sample_exponential btc
              {| data := []; price := Fin 1500 |}))))
           Hbtc 1500 eq_refl)).
  - discriminate.
  - reflexivity.
Defined.

(** ** The axis of the sparkline *)

(** C9.  For a window that is not empty, the vertical axis of the
    sparkline runs from [min * 0.99] to [max * 1.01] in compact mode and
    from [min * 0.999] to [max * 1.001] in detailed mode, [min] and [max]
    being [Math.min] and [Math.max] of the values: for rational values,
    the least and the greatest of them. *)
Theorem sparkline_domain (data : list PricePoint) :
  data <> [] ->
  let prices := map value data in
  domain data false =
    Some ((Math_min prices * 0.99)%js, (Math_max prices * 1.01)%js) /\
  domain data true =
    Some ((Math_min prices * 0.999)%js, (Math_max prices * 1.001)%js) /\
  (Forall is_finite prices ->
   exists lo hi,
     In (Fin lo) prices /\ In (Fin hi) prices /\
     (forall q, In (Fin q) prices -> lo <= q /\ q <= hi) /\
     domain data false = Some (Fin (lo * 0.99), Fin (hi * 1.01)) /\
     domain data true = Some (Fin (lo * 0.999), Fin (hi * 1.001))).
Proof.
  intros Hne prices.
  assert (Hd : forall detailed,
            domain data detailed = Some (axis_min data detailed, axis_max data detailed))
    by (intros detailed; destruct data; [congruence | reflexivity]).
  split; [apply Hd|]. split; [apply Hd|].
  intros Hf.
  assert (Hp : prices <> [])
    by (subst prices; destruct data; [congruence | discriminate]).
  destruct (Math_min_finite prices Hf Hp) as (lo & Hlo & Hinlo & Hle).
  destruct (Math_max_finite prices Hf Hp) as (hi & Hhi & Hinhi & Hge).
  exists lo, hi. split; [assumption|]. split; [assumption|].
  split; [intros q Hq; split; [apply Hle | apply Hge]; assumption|].
  rewrite !Hd. unfold axis_min, axis_max. fold prices.
  rewrite Hlo, Hhi. split; reflexivity.
Qed.

Lemma sparkline_domain_witness :
  sample_sparkline <> [] /\
  domain sample_sparkline false =
    Some ((Math_min (map value sample_sparkline) * 0.99)%js,
          (Math_max (map value sample_sparkline) * 1.01)%js) /\
  domain sample_sparkline true =
    Some ((Math_min (map value sample_sparkline) * 0.999)%js,
          (Math_max (map value sample_sparkline) * 1.001)%js).
Proof.
  assert (Hne : sample_sparkline <> []) by discriminate.
  split; [exact Hne|].
  destruct (sparkline_domain sample_sparkline Hne) as (Hc & Hd & _).
  split; [exact Hc | exact Hd].
Defined.

(** The axis of the sample sparkline: its values run from 99 to 101. *)
Example sample_sparkline_axis :
  domain sample_sparkline false = Some (Fin (99 * 0.99), Fin (101 * 1.01)) /\
  domain sample_sparkline true = Some (Fin (99 * 0.999), Fin (101 * 1.001)) /\
  domain [] false = None.
Proof. split; [reflexivity|]. split; reflexivity. Qed.

(** * Further properties of the simulator *)

Lemma constrain_Fin (b p : Q) :
  constrain (Fin b) (Fin p) =
    let p1 := if Qltb p (b * 0.8) then b * 0.8 + b * 0.005 else p in
    if Qltb (b * 1.2) p1 then Fin (b * 1.2 + - (b * 0.005)) else Fin p1.
Proof.
  unfold constrain. cbn [mul add sub neg ltb gtb].
  destruct (Qltb p (b * 0.8)); cbn [ltb gtb];
    match goal with |- context [Qltb ?x ?y] => destruct (Qltb x y) end;
    reflexivity.
Qed.

(** X2.  Within the band the soft constraints change nothing, so that applying
    them twice is applying them once. *)
Theorem constrain_identity_on_band (b p : Q) (x : number) :
  0 <= b ->
  (0.8 * b <= p -> p <= 1.2 * b -> constrain (Fin b) (Fin p) = Fin p) /\
  constrain (Fin b) (constrain (Fin b) x) = constrain (Fin b) x.
Proof.
  intros Hb.
  assert (Hid : forall q, 0.8 * b <= q -> q <= 1.2 * b ->
                          constrain (Fin b) (Fin q) = Fin q).
  { intros q Hlo Hhi. rewrite constrain_Fin. cbv zeta.
    destruct (Qltb q (b * 0.8)) eqn:E1;
      [apply Qltb_lt in E1; lra | apply Qltb_ge in E1].
    destruct (Qltb (b * 1.2) q) eqn:E2;
      [apply Qltb_lt in E2; lra | reflexivity]. }
  split; [apply Hid|].
  destruct x as [q| | |].
  - destruct (constrain_within_band b (Fin q) Hb) as (s & -> & Hlo & Hhi);
      [discriminate|]. apply Hid; assumption.
  - destruct (constrain_within_band b PInf Hb) as (s & -> & Hlo & Hhi);
      [discriminate|]. apply Hid; assumption.
  - destruct (constrain_within_band b NInf Hb) as (s & -> & Hlo & Hhi);
      [discriminate|]. apply Hid; assumption.
  - reflexivity.
Qed.

Lemma constrain_identity_on_band_witness :
  0 <= 100 /\
  (0.8 * 100 <= 95 -> 95 <= 1.2 * 100 -> constrain (Fin 100) (Fin 95) = Fin 95) /\
  constrain (Fin 100) (constrain (Fin 100) (Fin 300)) = constrain (Fin 100) (Fin 300).
Proof.
  split; [lra|]. apply (constrain_identity_on_band 100 95 (Fin 300)). lra.
Defined.

(** ** The flat line through a session *)

Lemma flicker_flat (g : rng) : flat_sample (fst (runState flicker g)).
Proof.
  rewrite run_flicker. unfold flat_sample.
  destruct (Qltb 0.95 (tape g (pos g))); [|now left].
  destruct (Qltb 0.5 (tape g (S (pos g)))); cbn [fst]; auto.
Qed.

Lemma GAFR_ticks_flat (c : CoinData) (n : nat) (v : view) (g : rng) :
  is_GAFR c = true -> coin v = c ->
  Forall flat_sample (data (st v)) -> price (st v) = Fin 0 ->
  let v' := fst (runState (steps v (repeat Tick n)) g) in
  Forall flat_sample (data (st v')) /\ price (st v') = Fin 0.
Proof.
  intros Hid. revert v g.
  induction n as [|n IH]; intros v g Hv Hw Hp; cbn [repeat steps].
  - rewrite run_ret. split; assumption.
  - cbv zeta. rewrite run_bind. apply IH.
    + cbn [step]. rewrite run_bind, run_ret. cbn [fst coin]. exact Hv.
    + cbn [step]. rewrite run_bind, run_ret. cbn [fst st].
      rewrite Hv, (run_advance_GAFR _ _ _ Hid).
      pose proof (flicker_flat g) as Hf.
      destruct (runState flicker g) as [val g']. cbn [fst data] in *.
      apply Forall_app. split.
      * unfold slice1. destruct (data (st v)) as [|x xs]; [constructor|].
        inversion Hw; assumption.
      * constructor; [assumption | constructor].
    + cbn [step]. rewrite run_bind, run_ret. cbn [fst st].
      rewrite Hv, (run_advance_GAFR _ _ _ Hid).
      destruct (runState flicker g) as [val g']. reflexivity.
Qed.

Lemma session_length (c : CoinData) (es : list event) (g : rng) :
  List.length (data (st (fst (runState (session c es) g)))) = maxPoints.
Proof.
  unfold session, mount. rewrite run_bind, run_bind, run_ret. cbn [fst snd].
  apply steps_length. cbn [st]. apply initialize_length.
Qed.

Lemma GAFR_session_flat (c : CoinData) (n : nat) (g : rng) :
  is_GAFR c = true ->
  let v := fst (runState (session c (repeat Tick n)) g) in
  Forall flat_sample (data (st v)) /\ price (st v) = Fin 0 /\
  List.length (data (st v)) = maxPoints.
Proof.
  intros Hid v.
  assert (Hlen : List.length (data (st v)) = maxPoints)
    by (apply session_length).
  subst v. unfold session, mount in *.
  rewrite run_bind, run_bind, run_ret in *. cbn [fst snd] in *.
  rewrite (run_initialize_GAFR _ _ Hid) in *. cbn [fst snd] in *.
  destruct (GAFR_ticks_flat c n
              {| coin := c; st := {| data := repeat (Fin 0) maxPoints; price := Fin 0 |} |}
              g Hid eq_refl) as [Hf Hp].
  - cbn [st data]. apply Forall_forall. intros x Hx.
    apply repeat_spec in Hx. left. exact Hx.
  - reflexivity.
  - repeat split; assumption.
Qed.

(** X4.  Through a session of GAFR every sample of the window is 0, 0.01 or
    -0.01, and the price is 0. *)
Theorem GAFR_session_samples (c : CoinData) (n : nat) (g : rng) :
  id c = "GAFR"%string ->
  Forall flat_sample
    (data (st (fst (runState (session c (repeat Tick n)) g)))) /\
  price (st (fst (runState (session c (repeat Tick n)) g))) = Fin 0.
Proof.
  intros Hid. apply is_GAFR_true in Hid.
  destruct (GAFR_session_flat c n g Hid) as (Hf & Hp & _). split; assumption.
Qed.

Lemma GAFR_session_samples_witness :
  id gafr = "GAFR"%string /\
  Forall flat_sample
    (data (st (fst (runState (session gafr (repeat Tick 5)) flicker_tape)))) /\
  price (st (fst (runState (session gafr (repeat Tick 5)) flicker_tape))) = Fin 0.
Proof.
  split; [reflexivity|].
  apply (GAFR_session_samples gafr 5 flicker_tape). reflexivity.
Defined.

(** X5.  Through a session of GAFR the percent readout is ["0.00"] while the
    oldest sample of the window is 0 and ["-100.00"] while it is a flicker
    of either sign; the price readout is ["0.00"]. *)
Theorem GAFR_session_readout (exponential : Q -> string)
    (c : CoinData) (n : nat) (g : rng) :
  id c = "GAFR"%string ->
  let s := st (fst (runState (session c (repeat Tick n)) g)) in
  priceDisplay exponential c s = "0.00"%string /\
  exists first,
    nth_error (data s) 0 = Some first /\
    (first = Fin 0 -> percentChange exponential s = "0.00"%string) /\
    (first <> Fin 0 -> percentChange exponential s = "-100.00"%string).
Proof.
  intros Hid s. apply is_GAFR_true in Hid.
  destruct (GAFR_session_flat c n g Hid) as (Hf & Hp & Hlen). fold s in Hf, Hp, Hlen.
  split; [unfold priceDisplay; rewrite Hid; reflexivity|].
  destruct (data s) as [|first rest] eqn:Hd; [discriminate Hlen|].
  exists first. split; [reflexivity|].
  inversion Hf as [|? ? Hfirst _]; subst.
  unfold percentChange. rewrite Hd, Hp. cbn [nth_error].
  destruct Hfirst as [-> | [-> | ->]]; split; intros H;
    try congruence; try discriminate H; reflexivity.
Qed.

Lemma GAFR_session_readout_witness :
  id gafr = "GAFR"%string /\
  priceDisplay sample_exponential gafr
    (st (fst (runState (session gafr (repeat Tick 80)) flicker_tape)))
    = "0.00"%string.
Proof.
  split; [reflexivity|].
  apply (GAFR_session_readout sample_exponential gafr 80 flicker_tape).
  reflexivity.
Defined.

(** On [flicker_tape] every tick flickers downwards: after 80 ticks the
    oldest sample is -0.01 and the readout is minus one hundred percent. *)
Example GAFR_readout_after_flickers :
  percentChange sample_exponential
    (st (fst (runState (session gafr (repeat Tick 80)) flicker_tape)))
    = "-100.00"%string.
Proof. vm_compute. reflexivity. Qed.

(** ** The calls of Math.random *)

Lemma ticks_draws (c : CoinData) (n : nat) (v : view) (g : rng) :
  coin v = c ->
  let g' := snd (runState (steps v (repeat Tick n)) g) in
  tape g' = tape g /\
  (is_GAFR c = false -> pos g' = (pos g + n)%nat) /\
  (is_GAFR c = true -> (pos g + n <= pos g')%nat /\ (pos g' <= pos g + 2 * n)%nat).
Proof.
  revert v g. induction n as [|n IH]; intros v g Hv; cbn [repeat steps].
  - cbv zeta. rewrite run_ret. cbn [snd]. repeat split; lia.
  - cbv zeta. rewrite run_bind.
    set (v1 := fst (runState (step v Tick) g)).
    set (g1 := snd (runState (step v Tick) g)).
    assert (Hv1 : coin v1 = c)
      by (unfold v1; cbn [step]; rewrite run_bind, run_ret; exact Hv).
    destruct (IH v1 g1 Hv1) as (Ht & Hn & Hg).
    assert (H1 : tape g1 = tape g /\
                 (is_GAFR c = false -> pos g1 = S (pos g)) /\
                 (is_GAFR c = true -> (S (pos g) <= pos g1)%nat /\ (pos g1 <= S (S (pos g)))%nat)).
    { unfold g1. cbn [step]. rewrite run_bind, run_ret. cbn [snd]. rewrite Hv.
      destruct (is_GAFR c) eqn:E.
      - rewrite (run_advance_GAFR _ _ _ E), run_flicker.
        destruct (Qltb 0.95 (tape g (pos g))); cbn [snd tape pos];
          repeat split; try discriminate; lia.
      - rewrite (run_advance_normal _ _ _ E). cbn [snd tape pos].
        repeat split; try discriminate; lia. }
    destruct H1 as (Ht1 & Hn1 & Hg1).
    split; [congruence|]. split.
    + intros E. rewrite (Hn E), (Hn1 E). lia.
    + intros E. destruct (Hg E), (Hg1 E). lia.
Qed.

(** X6.  [Math.random] is called 80 times to seed the window of a coin other
    than GAFR and once for each of its ticks; it is not called to reset
    GAFR, and once or twice for each of its ticks. *)
Theorem session_draws (c : CoinData) (n : nat) (g : rng) :
  let g' := snd (runState (session c (repeat Tick n)) g) in
  tape g' = tape g /\
  (id c <> "GAFR"%string -> pos g' = (pos g + maxPoints + n)%nat) /\
  (id c = "GAFR"%string -> (pos g + n <= pos g')%nat /\ (pos g' <= pos g + 2 * n)%nat).
Proof.
  intros g'. subst g'. unfold session, mount.
  rewrite run_bind, run_bind, run_ret. cbn [fst snd].
  set (v := {| coin := c; st := fst (runState (initialize c) g) |}).
  set (g0 := snd (runState (initialize c) g)).
  destruct (ticks_draws c n v g0 eq_refl) as (Ht & Hn & Hg).
  assert (H0 : tape g0 = tape g /\
               (is_GAFR c = false -> pos g0 = (pos g + maxPoints)%nat) /\
               (is_GAFR c = true -> pos g0 = pos g)).
  { unfold g0. destruct (is_GAFR c) eqn:E.
    - rewrite (run_initialize_GAFR _ _ E). repeat split; discriminate.
    - rewrite (run_initialize_normal _ _ E). repeat split; discriminate. }
  destruct H0 as (Ht0 & Hn0 & Hg0).
  split; [congruence|]. split.
  - intros E. apply is_GAFR_false in E. rewrite (Hn E), (Hn0 E). reflexivity.
  - intros E. apply is_GAFR_true in E. destruct (Hg E). rewrite (Hg0 E) in *. lia.
Qed.

Lemma session_draws_witness :
  id btc <> "GAFR"%string /\
  pos (snd (runState (session btc (repeat Tick 7)) (constant_tape 0.5)))
    = (pos (constant_tape 0.5) + maxPoints + 7)%nat.
Proof.
  assert (H : id btc <> "GAFR"%string) by discriminate.
  split; [exact H|].
  apply (proj1 (proj2 (session_draws btc 7 (constant_tape 0.5)))). exact H.
Defined.

(** ** The window as a queue *)

(** X7.  After [n] ticks a window that was not empty is the old window followed
    by the [n] new samples, without its [n] oldest elements: samples leave
    in the order in which they came. *)
Theorem ticks_first_in_first_out (n : nat) (v : view) (g : rng) :
  data (st v) <> [] ->
  exists samples,
    List.length samples = n /\
    data (st (fst (runState (steps v (repeat Tick n)) g))) =
      skipn n (data (st v) ++ samples).
Proof.
  revert v g. induction n as [|n IH]; intros v g Hne; cbn [repeat steps].
  - exists []. rewrite run_ret, app_nil_r. split; reflexivity.
  - rewrite run_bind.
    set (v1 := fst (runState (step v Tick) g)).
    destruct (advance_slides (coin v) (st v) g) as [x Hx].
    assert (Hv1 : data (st v1) = slice1 (data (st v)) ++ [x])
      by (unfold v1; cbn [step]; rewrite run_bind, run_ret; exact Hx).
    destruct (IH v1 (snd (runState (step v Tick) g))) as (samples & Hlen & Hd).
    { rewrite Hv1. destruct (slice1 (data (st v))); discriminate. }
    exists (x :: samples). split; [cbn; lia|].
    rewrite Hd, Hv1. destruct (data (st v)) as [|a l]; [congruence|].
    cbn [slice1 tl app skipn]. rewrite <- app_assoc. reflexivity.
Qed.

Lemma ticks_first_in_first_out_witness :
  [Fin 90; Fin 80] <> [] /\
  exists samples,
    List.length samples = 3%nat /\
    data (st (fst (runState
      (steps {| coin := btc; st := {| data := [Fin 90; Fin 80]; price := Fin 80 |} |}
             (repeat Tick 3)) (constant_tape 0)))) =
      skipn 3 ([Fin 90; Fin 80] ++ samples).
Proof.
  split; [discriminate|].
  apply (ticks_first_in_first_out 3
           {| coin := btc; st := {| data := [Fin 90; Fin 80]; price := Fin 80 |} |}
           (constant_tape 0)).
  discriminate.
Defined.

(** * Further properties of the chart projector *)









(** ** The trend *)

(** X10.  The arrow against the percent change.  Over a positive first sample
    the trend is positive exactly when the change is not negative; over a
    negative first sample, exactly when the change is not positive; and
    over an empty window or a first sample of zero, exactly when the price
    is not negative. *)
Theorem isPositive_against_change (s : chart) (p : Q) :
  price s = Fin p ->
  (forall f rest, data s = Fin f :: rest -> 0 < f ->
     (isPositive s = true <-> 0 <= (p - f) / f * 100)) /\
  (forall f rest, data s = Fin f :: rest -> f < 0 ->
     (isPositive s = true <-> (p - f) / f * 100 <= 0)) /\
  (data s = [] \/ (exists f rest, data s = Fin f :: rest /\ f == 0) ->
     (isPositive s = true <-> 0 <= p)).
Proof.
  intros Hp.
  assert (Hge : forall x, (Fin p >=? Fin x)%js = true <-> x <= p).
  { intros x. unfold geb, gtb. cbn [ltb strict_eq].
    rewrite orb_true_iff, Qltb_lt, Qeq_bool_iff. split.
    - intros [H|H]; lra.
    - intros H. destruct (Qlt_le_dec x p); [left; assumption | right; lra]. }
  assert (Hnz : forall f rest, data s = Fin f :: rest -> ~ f == 0 ->
                  (isPositive s = true <-> f <= p)).
  { intros f rest Hd Hf. unfold isPositive. rewrite Hd, Hp.
    cbn [nth_error or_else]. unfold logical_or. cbn [truthy].
    destruct (Qeq_bool f 0) eqn:E; [apply Qeq_bool_iff in E; contradiction|].
    cbn [negb]. apply Hge. }
  split; [|split].
  - intros f rest Hd Hf. rewrite (Hnz f rest Hd) by lra.
    assert (E : (p - f) / f * 100 == (p - f) * (100 / f)) by (field; lra).
    rewrite E.
    assert (Hk : 0 < 100 / f) by (apply Qlt_shift_div_l; lra).
    set (k := 100 / f) in *. clearbody k. split; intros H; nra.
  - intros f rest Hd Hf. rewrite (Hnz f rest Hd) by lra.
    assert (E : (p - f) / f * 100 == (f - p) * (100 / - f)) by (field; lra).
    rewrite E.
    assert (Hk : 0 < 100 / - f) by (apply Qlt_shift_div_l; lra).
    set (k := 100 / - f) in *. clearbody k. split; intros H; nra.
  - intros [Hd | (f & rest & Hd & Hf)]; unfold isPositive; rewrite Hp, ?Hd.
    + cbn [nth_error or_else]. apply Hge.
    + cbn [nth_error or_else]. unfold logical_or. cbn [truthy].
      apply Qeq_bool_iff in Hf. rewrite Hf. cbn [negb]. apply Hge.
Qed.

Lemma isPositive_against_change_witness :
  0 < 100 /\
  (isPositive {| data := [Fin 100; Fin 150]; price := Fin 150 |} = true <->
   0 <= (150 - 100) / 100 * 100).
Proof.
  split; [lra|].
  apply (proj1 (isPositive_against_change
                  {| data := [Fin 100; Fin 150]; price := Fin 150 |} 150 eq_refl)
           100 [Fin 150] eq_refl).
  lra.
Defined.

(** ** The labels *)

(** X11.  A tick of the vertical axis is printed with six digits after the point
    in detailed mode when its value is below 1, and with two otherwise;
    the tooltip and the RANGE readout print six.  (For rationals of a
    magnitude below [10^21].) *)
Theorem labels_digits (exponential : Q -> string) (detailed : bool) (q : Q) :
  Qabs q < 10 ^ 21 ->
  fixed_point (if detailed && Qltb q 1 then 6 else 2)
    (tickFormatter exponential detailed (Fin q)) /\
  fixed_point 6 (fst (tooltip_formatter exponential (Fin q))) /\
  (forall data, Qabs (q * 1.02) < 10 ^ 21 ->
     fixed_point 6 (fst (range_readout exponential {| data := data; price := Fin q |})) /\
     fixed_point 6 (snd (range_readout exponential {| data := data; price := Fin q |}))).
Proof.
  intros Hq. split; [|split].
  - unfold tickFormatter. cbn [ltb].
    destruct detailed; cbn [andb];
      [destruct (Qltb q 1)|]; apply toFixed_fixed_point; (discriminate || assumption).
  - apply toFixed_fixed_point; [discriminate | assumption].
  - intros data Hq2. unfold range_readout. cbn [fst snd price mul].
    split; (apply toFixed_fixed_point; [discriminate|]).
    + set (T := 10 ^ 21) in *. clearbody T.
      revert Hq2. apply Qabs_case; intros; apply Qabs_case; intros; lra.
    + exact Hq2.
Qed.

Lemma labels_digits_witness :
  Qabs 0.5 < 10 ^ 21 /\
  fixed_point 6 (tickFormatter sample_exponential true (Fin 0.5)) /\
  tickFormatter sample_exponential true (Fin 0.5) = "0.500000"%string.
Proof.
  assert (H : Qabs 0.5 < 10 ^ 21) by reflexivity.
  split; [exact H|].
  split; [|reflexivity].
  apply (proj1 (labels_digits sample_exponential true 0.5 H)).
Defined.

(** * Further properties of the sparkline *)

(** X12.  For values that are not negative the vertical axis holds every value
    of the data between its bounds. *)
Theorem sparkline_domain_encloses (data : list PricePoint) (detailed : bool) :
  data <> [] ->
  Forall (fun p => exists q, value p = Fin q /\ 0 <= q) data ->
  exists lo hi,
    domain data detailed = Some (Fin lo, Fin hi) /\
    lo <= hi /\
    forall p q, In p data -> value p = Fin q -> lo <= q /\ q <= hi.
Proof.
  intros Hne Hpos.
  set (prices := map value data).
  assert (Hf : Forall is_finite prices).
  { unfold prices. apply Forall_map. eapply Forall_impl; [|exact Hpos].
    intros p (q & Hq & _). exists q. exact Hq. }
  assert (Hp : prices <> [])
    by (unfold prices; destruct data; [congruence | discriminate]).
  assert (Hnn : forall q, In (Fin q) prices -> 0 <= q).
  { intros q Hq. unfold prices in Hq. apply in_map_iff in Hq.
    destruct Hq as (p & Hv & Hin). rewrite Forall_forall in Hpos.
    destruct (Hpos p Hin) as (q' & Hq' & H0). congruence. }
  destruct (Math_min_finite prices Hf Hp) as (m & Hm & Hmin & Hle).
  destruct (Math_max_finite prices Hf Hp) as (M & HM & Hmax & Hge).
  pose proof (Hnn _ Hmin) as Hm0. pose proof (Hle _ Hmax) as HmM.
  assert (Hd : domain data detailed =
               Some (Fin (m * (if detailed then 0.999 else 0.99)),
                     Fin (M * (if detailed then 1.001 else 1.01)))).
  { destruct data; [congruence|]. unfold domain, axis_min, axis_max.
    fold prices. rewrite Hm, HM. destruct detailed; reflexivity. }
  do 2 eexists. split; [exact Hd|].
  split.
  - destruct detailed; lra.
  - intros p q Hin Hq.
    assert (Hqin : In (Fin q) prices)
      by (unfold prices; rewrite <- Hq; apply in_map; exact Hin).
    specialize (Hle _ Hqin). specialize (Hge _ Hqin).
    destruct detailed; split; lra.
Qed.

Lemma sparkline_domain_encloses_witness :
  sample_sparkline <> [] /\
  exists lo hi,
    domain sample_sparkline true = Some (Fin lo, Fin hi) /\
    lo <= hi /\
    forall p q, In p sample_sparkline -> value p = Fin q -> lo <= q /\ q <= hi.
Proof.
  split; [discriminate|].
  apply (sparkline_domain_encloses sample_sparkline true).
  - discriminate.
  - repeat constructor; eexists; (split; [reflexivity | cbn; lra]).
Defined.



(** ** The time labels *)

Lemma split_colon_plain (a : string) :
  has_colon a = false -> split_colon a = [a].
Proof.
  induction a as [|c a IH]; intros H; cbn in *; [reflexivity|].
  apply orb_false_iff in H. destruct H as [Hc Ha].
  rewrite Hc, (IH Ha). reflexivity.
Qed.

Lemma split_colon_field (a r : string) :
  has_colon a = false ->
  split_colon (a ++ ":" ++ r) = a :: split_colon r.
Proof.
  induction a as [|c a IH]; intros H; cbn in *; [reflexivity|].
  apply orb_false_iff in H. destruct H as [Hc Ha].
  rewrite Hc, (IH Ha). reflexivity.
Qed.

Lemma split_colon_pieces (s : string) :
  split_colon s <> [] /\
  Forall (fun p => has_colon p = false) (split_colon s).
Proof.
  induction s as [|c s [Hne Hf]]; cbn.
  - split; [discriminate | repeat constructor].
  - destruct (Ascii.eqb c ":") eqn:Hc.
    + split; [discriminate | constructor; [reflexivity | assumption]].
    + destruct (split_colon s) as [|p ps]; [congruence|].
      split; [discriminate|].
      inversion Hf; subst. constructor; [|assumption].
      cbn. rewrite Hc. assumption.
Qed.

Lemma join_split_colon (s : string) : join ":" (split_colon s) = s.
Proof.
  induction s as [|c s IH]; cbn; [reflexivity|].
  destruct (Ascii.eqb c ":") eqn:Hc.
  - apply Ascii.eqb_eq in Hc. subst c.
    destruct (split_colon_pieces s) as [Hne _].
    destruct (split_colon s) as [|p ps] eqn:E; [congruence|].
    cbn [join]. cbn. f_equal. exact IH.
  - destruct (split_colon_pieces s) as [Hne _].
    destruct (split_colon s) as [|p ps] eqn:E; [congruence|].
    destruct ps as [|p' ps']; cbn [join] in *; cbn; f_equal; exact IH.
Qed.

Lemma split_colon_join (ps : list string) :
  ps <> [] -> Forall (fun p => has_colon p = false) ps ->
  split_colon (join ":" ps) = ps.
Proof.
  induction ps as [|a ps IH]; intros Hne Hf; [congruence|].
  inversion Hf as [|? ? Ha Hps]; subst.
  destruct ps as [|b ps'].
  - cbn [join]. apply split_colon_plain, Ha.
  - cbn [join]. rewrite split_colon_field by exact Ha.
    f_equal. apply IH; [discriminate | assumption].
Qed.

Lemma firstn_pieces (ps : list string) :
  ps <> [] -> Forall (fun p => has_colon p = false) ps ->
  firstn 2 ps <> [] /\ Forall (fun p => has_colon p = false) (firstn 2 ps).
Proof.
  intros Hne Hf. split.
  - destruct ps; [congruence | discriminate].
  - destruct ps as [|a [|b ps']]; [constructor | exact Hf |].
    inversion Hf as [|? ? Ha Hf']; subst.
    inversion Hf' as [|? ? Hb _]; subst.
    cbn [firstn]. repeat constructor; assumption.
Qed.

(** X14.  [formatTime] keeps the first two fields of a time: it cuts a string
    at its second colon and leaves a string with fewer colons as it is. *)
Theorem formatTime_two_fields (a b rest : string) :
  has_colon a = false ->
  has_colon b = false ->
  formatTime (a ++ ":" ++ b ++ ":" ++ rest) = (a ++ ":" ++ b)%string /\
  formatTime (a ++ ":" ++ b) = (a ++ ":" ++ b)%string /\
  formatTime a = a.
Proof.
  intros Ha Hb. unfold formatTime. repeat split.
  - rewrite (split_colon_field a _ Ha), (split_colon_field b _ Hb). reflexivity.
  - rewrite (split_colon_field a _ Ha), (split_colon_plain b Hb). reflexivity.
  - rewrite (split_colon_plain a Ha). reflexivity.
Qed.

Lemma formatTime_two_fields_witness :
  (has_colon "10" = false /\ has_colon "42" = false) /\
  formatTime "10:42:07" = "10:42"%string.
Proof.
  split; [split; reflexivity|].
  apply (proj1 (formatTime_two_fields "10" "42" "07" eq_refl eq_refl)).
Defined.

(** X15.  Formatting a formatted time changes nothing, and the label has at most
    two fields. *)
Theorem formatTime_idempotent (s : string) :
  formatTime (formatTime s) = formatTime s /\
  (List.length (split_colon (formatTime s)) <= 2)%nat.
Proof.
  unfold formatTime.
  destruct (split_colon_pieces s) as [Hne Hf].
  destruct (firstn_pieces _ Hne Hf) as [Hne2 Hf2].
  rewrite (split_colon_join _ Hne2 Hf2). split.
  - rewrite firstn_firstn. reflexivity.
  - apply firstn_le_length.
Qed.

(** * Properties of the animation *)

Lemma Qfloor_unique (q : Q) (z : Z) :
  inject_Z z <= q -> q < inject_Z (z + 1) -> Qfloor q = z.
Proof.
  intros Hlo Hhi.
  assert (H1 : (z <= Qfloor q)%Z).
  { rewrite <- (Qfloor_Z z). apply Qfloor_resp_le. exact Hlo. }
  assert (H2 : (Qfloor q < z + 1)%Z).
  { rewrite Zlt_Qlt. eapply Qle_lt_trans; [apply Qfloor_le | exact Hhi]. }
  lia.
Qed.

(** The remainder of a dividend that is not negative by a positive
    divisor: what is left above the greatest multiple below it. *)
Lemma rem_nonneg (x y : Q) :
  0 <= x -> 0 < y ->
  exists r, JS.rem (Fin x) (Fin y) = Fin r /\ 0 <= r /\ r < y /\
            r == x - y * inject_Z (Qfloor (x / y)).
Proof.
  intros Hx Hy. unfold JS.rem, Qtrunc.
  destruct (Qeq_bool y 0) eqn:E; [apply Qeq_bool_iff in E; lra|].
  assert (Hq : 0 <= x / y) by (apply Qle_shift_div_l; lra).
  destruct (Qltb (x / y) 0) eqn:E2; [apply Qltb_lt in E2; lra|].
  eexists. split; [reflexivity|].
  pose proof (Qfloor_le (x / y)) as Hle.
  pose proof (Qlt_floor (x / y)) as Hlt.
  rewrite inject_Z_plus in Hlt. change (inject_Z 1) with 1 in Hlt.
  assert (Hxy : x / y * y == x) by (field; lra).
  set (k := inject_Z (Qfloor (x / y))) in *.
  set (d := x / y) in *. clearbody k d.
  split; [nra|]. split; [nra | reflexivity].
Qed.

Lemma rem_shift (x x' y : Q) :
  0 <= x -> 0 < y -> x' == x + y ->
  JS.rem (Fin x') (Fin y) =j= JS.rem (Fin x) (Fin y).
Proof.
  intros Hx Hy E.
  destruct (rem_nonneg x y Hx Hy) as (r & -> & _ & _ & Hr).
  destruct (rem_nonneg x' y) as (r' & -> & _ & _ & Hr'); [lra | lra |].
  cbn [equiv]. rewrite Hr, Hr'.
  assert (Eq : x' / y == x / y + 1) by (rewrite E; field; lra).
  assert (Hf : Qfloor (x' / y) = (Qfloor (x / y) + 1)%Z).
  { apply Qfloor_unique.
    - rewrite inject_Z_plus. change (inject_Z 1) with 1.
      pose proof (Qfloor_le (x / y)). lra.
    - rewrite !inject_Z_plus. change (inject_Z 1) with 1.
      pose proof (Qlt_floor (x / y)) as Hlt.
      rewrite inject_Z_plus in Hlt. change (inject_Z 1) with 1 in Hlt. lra. }
  rewrite Hf, inject_Z_plus, E. change (inject_Z 1) with 1. ring.
Qed.

(** X16.  While the clock runs the pod stays on the track, from -50 up to but
    not including 50, and the car on the road, from 50 down to but not
    including -50. *)
Theorem pod_and_car_on_track (t : Q) :
  0 <= t ->
  exists p c,
    pod_x (Fin t) = Fin p /\ car_x (Fin t) = Fin c /\
    -50 <= p /\ p < 50 /\ -50 < c /\ c <= 50.
Proof.
  intros Ht. unfold pod_x, car_x, speed, carSpeed, trackLimit. cbn [mul].
  destruct (rem_nonneg (t * 7.5) (50 * 2)) as (r1 & -> & H10 & H11 & _); [lra | lra |].
  destruct (rem_nonneg (t * 12) (50 * 2)) as (r2 & -> & H20 & H21 & _); [lra | lra |].
  cbn [sub neg add]. do 2 eexists.
  split; [reflexivity|]. split; [reflexivity|]. repeat split; lra.
Qed.

Lemma pod_and_car_on_track_witness :
  0 <= 20 /\
  exists p c,
    pod_x (Fin 20) = Fin p /\ car_x (Fin 20) = Fin c /\
    -50 <= p /\ p < 50 /\ -50 < c /\ c <= 50.
Proof. split; [lra|]. apply (pod_and_car_on_track 20). lra. Defined.

(** X17.  The pod is back where it was after 40/3 seconds and the car after
    25/3 seconds: the time either takes for the 100 units of a lap. *)
Theorem pod_and_car_laps (t : Q) :
  0 <= t ->
  pod_x (Fin (t + 40 / 3)) =j= pod_x (Fin t) /\
  car_x (Fin (t + 25 / 3)) =j= car_x (Fin t).
Proof.
  intros Ht. unfold pod_x, car_x, speed, carSpeed, trackLimit. cbn [mul].
  assert (Hp : JS.rem (Fin ((t + 40 / 3) * 7.5)) (Fin (50 * 2)) =j=
               JS.rem (Fin (t * 7.5)) (Fin (50 * 2)))
    by (apply rem_shift; [lra | lra | field]).
  assert (Hc : JS.rem (Fin ((t + 25 / 3) * 12)) (Fin (50 * 2)) =j=
               JS.rem (Fin (t * 12)) (Fin (50 * 2)))
    by (apply rem_shift; [lra | lra | field]).
  split.
  - destruct (JS.rem (Fin ((t + 40 / 3) * 7.5)) (Fin (50 * 2))) as [x| | |],
             (JS.rem (Fin (t * 7.5)) (Fin (50 * 2))) as [y| | |];
      cbn [equiv sub neg add] in *; try contradiction; try exact I. lra.
  - destruct (JS.rem (Fin ((t + 25 / 3) * 12)) (Fin (50 * 2))) as [x| | |],
             (JS.rem (Fin (t * 12)) (Fin (50 * 2))) as [y| | |];
      cbn [equiv sub neg add] in *; try contradiction; try exact I. lra.
Qed.

Lemma pod_and_car_laps_witness :
  0 <= 2 /\
  pod_x (Fin (2 + 40 / 3)) =j= pod_x (Fin 2) /\
  car_x (Fin (2 + 25 / 3)) =j= car_x (Fin 2).
Proof. split; [lra|]. apply (pod_and_car_laps 2). lra. Defined.

(** The pod and the car start at the opposite ends. *)
Example pod_and_car_start :
  pod_x (Fin 0) =j= Fin (-50) /\ car_x (Fin 0) =j= Fin 50.
Proof. split; vm_compute; reflexivity. Qed.

(** * Properties of the coin switcher *)

Lemma findIndex_from_spec {A : Type} (p : A -> bool) (xs : list A) (k : Z) :
  (findIndex_from p k xs = (-1)%Z /\ forall x, In x xs -> p x = false) \/
  (exists i x,
     nth_error xs i = Some x /\ p x = true /\
     (forall j y, (j < i)%nat -> nth_error xs j = Some y -> p y = false) /\
     findIndex_from p k xs = (k + Z.of_nat i)%Z).
Proof.
  revert k. induction xs as [|a xs IH]; intros k; cbn [findIndex_from].
  - left. split; [reflexivity | intros x []].
  - destruct (p a) eqn:Ha.
    + right. exists 0%nat, a. repeat split; auto; [lia | lia].
    + destruct (IH (k + 1)%Z) as [[E Hall] | (i & x & Hi & Hx & Hlt & E)].
      * left. split; [exact E|]. intros x [<- | Hx]; auto.
      * right. exists (S i), x. repeat split; auto.
        -- intros j y Hj Hy. destruct j as [|j]; cbn in Hy.
           ++ injection Hy as <-. exact Ha.
           ++ apply (Hlt j y); [lia | exact Hy].
        -- rewrite E. lia.
Qed.

Section SwitcherProperties.

Variable INITIAL_COINS : list CoinData.

Let n := List.length INITIAL_COINS.

Lemma findIndex_range (i : string) :
  (-1 <= findIndex (has_id i) INITIAL_COINS < Z.of_nat n)%Z.
Proof.
  unfold findIndex.
  destruct (findIndex_from_spec (has_id i) INITIAL_COINS 0)
    as [[E _] | (k & x & Hk & _ & _ & E)]; rewrite E.
  - lia.
  - assert (k < n)%nat by (apply nth_error_Some; congruence). lia.
Qed.

Lemma at_index_in (z : Z) :
  (0 <= z < Z.of_nat n)%Z ->
  exists c, at_index INITIAL_COINS z = Some c /\ In c INITIAL_COINS /\
            nth_error INITIAL_COINS (Z.to_nat z) = Some c.
Proof.
  intros Hz. unfold at_index.
  destruct (Z.ltb_spec z 0); [lia|].
  destruct (nth_error INITIAL_COINS (Z.to_nat z)) as [c|] eqn:E.
  - exists c. repeat split. eapply nth_error_In. exact E.
  - apply nth_error_None in E. fold n in E. lia.
Qed.

(** X18.  With at least one coin in the list neither arrow fails, and each
    selects a coin of the list, whatever was selected before. *)
Theorem arrows_select_listed_coins (t : trade) :
  INITIAL_COINS <> [] ->
  (exists c, In c INITIAL_COINS /\
             handleNextCoin INITIAL_COINS t = Some (select t (id c))) /\
  (exists c, In c INITIAL_COINS /\
             handlePrevCoin INITIAL_COINS t = Some (select t (id c))).
Proof.
  intros Hne.
  assert (Hn : (0 < n)%nat) by (unfold n; destruct INITIAL_COINS; [congruence | cbn; lia]).
  pose proof (findIndex_range (selectedCoinId t)) as Hr.
  unfold handleNextCoin, handlePrevCoin. fold n.
  set (ci := findIndex (has_id (selectedCoinId t)) INITIAL_COINS) in *.
  split.
  - destruct (at_index_in (Z.rem (ci + 1) (Z.of_nat n))) as (c & -> & Hin & _).
    + rewrite Z.rem_mod_nonneg by lia. apply Z.mod_pos_bound. lia.
    + exists c. split; [exact Hin | reflexivity].
  - destruct (at_index_in (Z.rem (ci - 1 + Z.of_nat n) (Z.of_nat n))) as (c & -> & Hin & _).
    + destruct (Z.eq_dec (ci - 1 + Z.of_nat n) (-1)) as [E|E].
      * rewrite E. assert (Z.of_nat n = 1)%Z by lia.
        replace (Z.of_nat n) with 1%Z by lia. cbn. lia.
      * rewrite Z.rem_mod_nonneg by lia. apply Z.mod_pos_bound. lia.
    + exists c. split; [exact Hin | reflexivity].
Qed.

Hypothesis distinct_ids : NoDup (map id INITIAL_COINS).

Lemma findIndex_at (i : nat) (c : CoinData) :
  nth_error INITIAL_COINS i = Some c ->
  findIndex (has_id (id c)) INITIAL_COINS = Z.of_nat i.
Proof.
  intros Hi. unfold findIndex.
  destruct (findIndex_from_spec (has_id (id c)) INITIAL_COINS 0)
    as [[_ Hall] | (k & x & Hk & Hx & _ & E)].
  - assert (Hc : has_id (id c) c = false)
      by (apply Hall; eapply nth_error_In; exact Hi).
    unfold has_id in Hc. rewrite String.eqb_refl in Hc. discriminate.
  - rewrite E. unfold has_id in Hx. apply String.eqb_eq in Hx.
    assert (k = i); [|subst; lia].
    apply (proj1 (NoDup_nth_error (map id INITIAL_COINS)) distinct_ids).
    + rewrite length_map. apply nth_error_Some. congruence.
    + rewrite !nth_error_map, Hk, Hi. cbn. congruence.
Qed.

Lemma handleNextCoin_at (t : trade) (i : nat) (c : CoinData) :
  nth_error INITIAL_COINS i = Some c ->
  selectedCoinId t = id c ->
  exists c',
    nth_error INITIAL_COINS ((i + 1) mod n) = Some c' /\
    handleNextCoin INITIAL_COINS t = Some (select t (id c')).
Proof.
  intros Hi Hs.
  assert (Hlt : (i < n)%nat) by (apply nth_error_Some; congruence).
  unfold handleNextCoin. rewrite Hs, (findIndex_at i c Hi). fold n.
  rewrite Z.rem_mod_nonneg by lia.
  replace (Z.of_nat i + 1)%Z with (Z.of_nat (i + 1)) by lia.
  rewrite <- Nat2Z.inj_mod.
  destruct (at_index_in (Z.of_nat ((i + 1) mod n))) as (c' & -> & _ & Hc').
  - split; [lia|]. apply Nat2Z.inj_lt, Nat.mod_upper_bound. lia.
  - rewrite Nat2Z.id in Hc'. exists c'. split; [exact Hc' | reflexivity].
Qed.

Lemma handlePrevCoin_at (t : trade) (i : nat) (c : CoinData) :
  nth_error INITIAL_COINS i = Some c ->
  selectedCoinId t = id c ->
  exists c',
    nth_error INITIAL_COINS ((i + n - 1) mod n) = Some c' /\
    handlePrevCoin INITIAL_COINS t = Some (select t (id c')).
Proof.
  intros Hi Hs.
  assert (Hlt : (i < n)%nat) by (apply nth_error_Some; congruence).
  unfold handlePrevCoin. rewrite Hs, (findIndex_at i c Hi). fold n.
  rewrite Z.rem_mod_nonneg by lia.
  replace (Z.of_nat i - 1 + Z.of_nat n)%Z with (Z.of_nat (i + n - 1)) by lia.
  rewrite <- Nat2Z.inj_mod.
  destruct (at_index_in (Z.of_nat ((i + n - 1) mod n))) as (c' & -> & _ & Hc').
  - split; [lia|]. apply Nat2Z.inj_lt, Nat.mod_upper_bound. lia.
  - rewrite Nat2Z.id in Hc'. exists c'. split; [exact Hc' | reflexivity].
Qed.

Lemma select_selected (t : trade) : select t (selectedCoinId t) = t.
Proof. destruct t; reflexivity. Qed.

(** X19.  With distinct ids, from the coin of index [i] the right arrow selects
    the coin of index [i + 1], the first one after the last; the left
    arrow the coin of index [i - 1], the last one before the first. *)
Theorem arrows_step (t : trade) (i : nat) (c : CoinData) :
  nth_error INITIAL_COINS i = Some c ->
  selectedCoinId t = id c ->
  (exists c',
     nth_error INITIAL_COINS (if (S i =? n)%nat then 0%nat else S i) = Some c' /\
     handleNextCoin INITIAL_COINS t = Some (select t (id c'))) /\
  (exists c',
     nth_error INITIAL_COINS (if (i =? 0)%nat then (n - 1)%nat else (i - 1)%nat) = Some c' /\
     handlePrevCoin INITIAL_COINS t = Some (select t (id c'))).
Proof.
  intros Hi Hs.
  assert (Hlt : (i < n)%nat) by (apply nth_error_Some; congruence).
  split.
  - destruct (handleNextCoin_at t i c Hi Hs) as (c' & Hc' & E).
    exists c'. split; [|exact E].
    destruct (Nat.eqb_spec (S i) n) as [En|En].
    + replace ((i + 1) mod n)%nat with 0%nat in Hc'; [exact Hc'|].
      replace (i + 1)%nat with n by lia. symmetry. apply Nat.Div0.mod_same.
    + rewrite Nat.mod_small in Hc' by lia.
      replace (S i) with (i + 1)%nat by lia. exact Hc'.
  - destruct (handlePrevCoin_at t i c Hi Hs) as (c' & Hc' & E).
    exists c'. split; [|exact E].
    destruct (Nat.eqb_spec i 0) as [E0|E0].
    + subst i. rewrite Nat.mod_small in Hc' by lia.
      replace (n - 1)%nat with (0 + n - 1)%nat by lia. exact Hc'.
    + replace ((i + n - 1) mod n)%nat with (i - 1)%nat in Hc'; [exact Hc'|].
      replace (i + n - 1)%nat with ((i - 1) + 1 * n)%nat by lia.
      rewrite Nat.Div0.mod_add. symmetry. apply Nat.mod_small. lia.
Qed.

(** X20.  With distinct ids the two arrows undo each other. *)
Theorem arrows_round_trip (t : trade) (i : nat) (c : CoinData) :
  nth_error INITIAL_COINS i = Some c ->
  selectedCoinId t = id c ->
  (exists t', handleNextCoin INITIAL_COINS t = Some t' /\
              handlePrevCoin INITIAL_COINS t' = Some t) /\
  (exists t', handlePrevCoin INITIAL_COINS t = Some t' /\
              handleNextCoin INITIAL_COINS t' = Some t).
Proof.
  intros Hi Hs.
  assert (Hlt : (i < n)%nat) by (apply nth_error_Some; congruence).
  assert (Hback : forall c0, nth_error INITIAL_COINS i = Some c0 ->
                             select t (id c0) = t).
  { intros c0 H0. rewrite Hi in H0. injection H0 as <-.
    rewrite <- Hs. apply select_selected. }
  split.
  - destruct (handleNextCoin_at t i c Hi Hs) as (c1 & H1 & E1).
    exists (select t (id c1)). split; [exact E1|].
    destruct (handlePrevCoin_at (select t (id c1)) _ c1 H1 eq_refl) as (c2 & H2 & E2).
    rewrite E2. f_equal.
    replace (((i + 1) mod n + n - 1) mod n)%nat with i in H2.
    + rewrite <- (Hback c2 H2). destruct t; reflexivity.
    + destruct (Nat.eq_dec (i + 1) n) as [En|En].
      * rewrite En, Nat.Div0.mod_same. cbn [Nat.add].
        rewrite Nat.mod_small by lia. lia.
      * rewrite (Nat.mod_small (i + 1)) by lia.
        replace (i + 1 + n - 1)%nat with (i + 1 * n)%nat by lia.
        rewrite Nat.Div0.mod_add. symmetry. apply Nat.mod_small. lia.
  - destruct (handlePrevCoin_at t i c Hi Hs) as (c1 & H1 & E1).
    exists (select t (id c1)). split; [exact E1|].
    destruct (handleNextCoin_at (select t (id c1)) _ c1 H1 eq_refl) as (c2 & H2 & E2).
    rewrite E2. f_equal.
    replace (((i + n - 1) mod n + 1) mod n)%nat with i in H2.
    + rewrite <- (Hback c2 H2). destruct t; reflexivity.
    + destruct (Nat.eq_dec i 0) as [E0|E0].
      * subst i. rewrite (Nat.mod_small (0 + n - 1)) by lia.
        replace (0 + n - 1 + 1)%nat with n by lia.
        symmetry. apply Nat.Div0.mod_same.
      * replace (i + n - 1)%nat with ((i - 1) + 1 * n)%nat by lia.
        rewrite Nat.Div0.mod_add, (Nat.mod_small (i - 1)) by lia.
        replace (i - 1 + 1)%nat with i by lia.
        symmetry. apply Nat.mod_small. lia.
Qed.

End SwitcherProperties.

Section SwitcherCycle.

Variable INITIAL_COINS : list CoinData.

Hypothesis distinct_ids : NoDup (map id INITIAL_COINS).

Lemma iterate_handleNextCoin (k : nat) (t : trade) (i : nat) (c : CoinData) :
  nth_error INITIAL_COINS i = Some c ->
  selectedCoinId t = id c ->
  exists c',
    nth_error INITIAL_COINS ((i + k) mod List.length INITIAL_COINS) = Some c' /\
    iterate (handleNextCoin INITIAL_COINS) k t = Some (select t (id c')).
Proof.
  revert t i c. induction k as [|k IH]; intros t i c Hi Hs.
  - assert (Hlt : (i < List.length INITIAL_COINS)%nat)
      by (apply nth_error_Some; congruence).
    exists c. rewrite Nat.add_0_r, Nat.mod_small by exact Hlt.
    split; [exact Hi|]. cbn [iterate]. rewrite <- Hs, select_selected. reflexivity.
  - destruct (handleNextCoin_at INITIAL_COINS distinct_ids t i c Hi Hs)
      as (c1 & H1 & E1).
    destruct (IH (select t (id c1)) _ c1 H1 eq_refl) as (c' & Hc' & E).
    exists c'. split.
    + rewrite Nat.Div0.add_mod_idemp_l in Hc'.
      replace (i + S k)%nat with (i + 1 + k)%nat by lia. exact Hc'.
    + cbn [iterate]. rewrite E1, E. destruct t; reflexivity.
Qed.

(** X21.  With distinct ids, as many clicks on the right arrow as there are
    coins lead back to the coin they started from. *)
Theorem right_arrow_cycle (t : trade) (i : nat) (c : CoinData) :
  nth_error INITIAL_COINS i = Some c ->
  selectedCoinId t = id c ->
  iterate (handleNextCoin INITIAL_COINS) (List.length INITIAL_COINS) t = Some t.
Proof.
  intros Hi Hs.
  assert (Hlt : (i < List.length INITIAL_COINS)%nat)
    by (apply nth_error_Some; congruence).
  destruct (iterate_handleNextCoin (List.length INITIAL_COINS) t i c Hi Hs)
    as (c' & Hc' & E).
  replace ((i + List.length INITIAL_COINS) mod List.length INITIAL_COINS)%nat
    with i in Hc'.
  - rewrite Hi in Hc'. injection Hc' as <-.
    rewrite E, <- Hs, select_selected. reflexivity.
  - replace (i + List.length INITIAL_COINS)%nat
      with (i + 1 * List.length INITIAL_COINS)%nat by lia.
    rewrite Nat.Div0.mod_add. symmetry. apply Nat.mod_small. exact Hlt.
Qed.

End SwitcherCycle.

Section SelectedCoin.

Variable INITIAL_COINS : list CoinData.

(** X22.  With at least one coin in the list there is a selected coin, and it is
    a coin of the list: the first one with the selected id or, when no
    coin has that id, the first coin of the list. *)
Theorem selectedCoin_listed (t : trade) :
  INITIAL_COINS <> [] ->
  exists c,
    selectedCoin INITIAL_COINS t = Some c /\ In c INITIAL_COINS /\
    (In (selectedCoinId t) (map id INITIAL_COINS) -> id c = selectedCoinId t) /\
    (~ In (selectedCoinId t) (map id INITIAL_COINS) ->
     nth_error INITIAL_COINS 0 = Some c).
Proof.
  intros Hne. unfold selectedCoin.
  destruct (find (has_id (selectedCoinId t)) INITIAL_COINS) as [c|] eqn:E.
  - apply find_some in E. destruct E as [Hin Hid].
    unfold has_id in Hid. apply String.eqb_eq in Hid.
    exists c. repeat split; auto.
    intros Hnot. exfalso. apply Hnot. rewrite <- Hid. apply in_map, Hin.
  - destruct INITIAL_COINS as [|c0 cs] eqn:EC; [congruence|].
    exists c0. split; [reflexivity|]. split; [now left|]. split; [|reflexivity].
    intros Hin. apply in_map_iff in Hin. destruct Hin as (x & Hx & Hin).
    pose proof (find_none _ _ E x Hin) as Hn.
    unfold has_id in Hn. rewrite Hx, String.eqb_refl in Hn. discriminate.
Qed.

End SelectedCoin.

Lemma sample_coins_distinct : NoDup (map id sample_coins).
Proof.
  repeat constructor; cbn; intros H;
    repeat (destruct H as [H|H]; [discriminate H|]); exact H.
Defined.

Lemma arrows_select_listed_coins_witness :
  sample_coins <> [] /\
  (exists c, In c sample_coins /\
     handleNextCoin sample_coins sample_trade = Some (select sample_trade (id c))) /\
  (exists c, In c sample_coins /\
     handlePrevCoin sample_coins sample_trade = Some (select sample_trade (id c))).
Proof.
  split; [discriminate|].
  apply (arrows_select_listed_coins sample_coins sample_trade). discriminate.
Defined.

Lemma arrows_step_witness :
  (NoDup (map id sample_coins) /\ nth_error sample_coins 2 = Some gafr) /\
  (exists c',
     nth_error sample_coins (if (3 =? List.length sample_coins)%nat then 0%nat else 3%nat)
       = Some c' /\
     handleNextCoin sample_coins sample_trade = Some (select sample_trade (id c'))) /\
  (exists c',
     nth_error sample_coins (if (2 =? 0)%nat then (List.length sample_coins - 1)%nat
                             else (2 - 1)%nat) = Some c' /\
     handlePrevCoin sample_coins sample_trade = Some (select sample_trade (id c'))).
Proof.
  split; [split; [exact sample_coins_distinct | reflexivity]|].
  apply (arrows_step sample_coins sample_coins_distinct sample_trade 2 gafr);
    reflexivity.
Defined.

Lemma arrows_round_trip_witness :
  (NoDup (map id sample_coins) /\ nth_error sample_coins 2 = Some gafr) /\
  (exists t', handleNextCoin sample_coins sample_trade = Some t' /\
              handlePrevCoin sample_coins t' = Some sample_trade) /\
  (exists t', handlePrevCoin sample_coins sample_trade = Some t' /\
              handleNextCoin sample_coins t' = Some sample_trade).
Proof.
  split; [split; [exact sample_coins_distinct | reflexivity]|].
  apply (arrows_round_trip sample_coins sample_coins_distinct sample_trade 2 gafr);
    reflexivity.
Defined.

Lemma right_arrow_cycle_witness :
  (NoDup (map id sample_coins) /\ nth_error sample_coins 2 = Some gafr) /\
  iterate (handleNextCoin sample_coins) (List.length sample_coins) sample_trade
    = Some sample_trade.
Proof.
  split; [split; [exact sample_coins_distinct | reflexivity]|].
  apply (right_arrow_cycle sample_coins sample_coins_distinct sample_trade 2 gafr);
    reflexivity.
Defined.

Lemma selectedCoin_listed_witness :
  sample_coins <> [] /\
  exists c,
    selectedCoin sample_coins sample_trade = Some c /\ In c sample_coins /\
    (In (selectedCoinId sample_trade) (map id sample_coins) ->
     id c = selectedCoinId sample_trade) /\
    (~ In (selectedCoinId sample_trade) (map id sample_coins) ->
     nth_error sample_coins 0 = Some c).
Proof.
  split; [discriminate|].
  apply (selectedCoin_listed sample_coins sample_trade). discriminate.
Defined.

(** Without distinct ids the right arrow is stuck: the index found for
    the id of two neighbours is the one of the first, and the arrow selects
    the second again and again. *)
Example arrows_with_duplicate_ids :
  handleNextCoin [btc; gafr; gafr; ustc] sample_trade
    = Some (select sample_trade "GAFR").
Proof. reflexivity. Qed.

(** * The program within the range of doubles *)

(** ** The two roundings *)

Lemma thresholds :
  0 < Binary64.underflow_threshold /\
  Binary64.underflow_threshold < 1 # 1000000 /\
  1000000 < Binary64.overflow_threshold /\
  Binary64.MIN_VALUE == 2 * Binary64.underflow_threshold /\
  Binary64.MAX_VALUE < Binary64.overflow_threshold.
Proof. repeat split; vm_compute; reflexivity. Qed.

Lemma MIN_NORMAL_above : Binary64.MIN_VALUE <= Binary64.MIN_NORMAL.
Proof. vm_compute. discriminate. Qed.

Lemma overflow_Fin (q : Q) :
  - Binary64.overflow_threshold < q -> q < Binary64.overflow_threshold ->
  Binary64.overflow q = Fin q.
Proof.
  intros Hlo Hhi. unfold Binary64.overflow.
  destruct (Qle_bool Binary64.overflow_threshold q) eqn:E1;
    [apply Qle_bool_iff in E1; lra|].
  destruct (Qle_bool q (- Binary64.overflow_threshold)) eqn:E2;
    [apply Qle_bool_iff in E2; lra|].
  reflexivity.
Qed.

Lemma overflow_PInf (q : Q) :
  Binary64.overflow_threshold <= q -> Binary64.overflow q = PInf.
Proof.
  intros H. unfold Binary64.overflow.
  apply Qle_bool_iff in H. rewrite H. reflexivity.
Qed.

(** A result that does not overflow is exact or, when it underflows,
    zero. *)
Lemma underflow_Fin (q : Q) :
  - Binary64.overflow_threshold < q -> q < Binary64.overflow_threshold ->
  exists p, Binary64.underflow q = Fin p /\
            (p == q \/
             (p == 0 /\ - Binary64.underflow_threshold <= q /\
              q <= Binary64.underflow_threshold)).
Proof.
  intros Hlo Hhi. unfold Binary64.underflow.
  destruct (Qeq_bool q 0) eqn:E0.
  - exists q. split; [reflexivity | left; reflexivity].
  - destruct (Qle_bool (- Binary64.underflow_threshold) q) eqn:E1;
      destruct (Qle_bool q Binary64.underflow_threshold) eqn:E2; cbn [andb];
      try (rewrite overflow_Fin by assumption;
           exists q; split; [reflexivity | left; reflexivity]).
    apply Qle_bool_iff in E1. apply Qle_bool_iff in E2.
    exists 0. split; [reflexivity|]. right. repeat split; try assumption.
Qed.

(** A result clear of both thresholds is exact. *)
Lemma underflow_exact (q : Q) :
  q == 0 \/ Binary64.underflow_threshold < q ->
  q < Binary64.overflow_threshold ->
  0 <= q ->
  Binary64.underflow q = Fin q.
Proof.
  intros Hq Hhi H0. unfold Binary64.underflow.
  destruct (thresholds) as (Hu & _ & HO & _).
  destruct (Qeq_bool q 0) eqn:E0; [reflexivity|].
  apply Qeq_bool_neq in E0.
  destruct Hq as [Hq|Hq]; [contradiction|].
  destruct (Qle_bool q Binary64.underflow_threshold) eqn:E2;
    [apply Qle_bool_iff in E2; lra|].
  rewrite andb_false_r. apply overflow_Fin; lra.
Qed.

Lemma mul64_Fin (x y : Q) :
  Binary64.mul (Fin x) (Fin y) = Binary64.underflow (x * y).
Proof. reflexivity. Qed.

Lemma add64_Fin (x y : Q) :
  Binary64.add (Fin x) (Fin y) = Binary64.overflow (x + y).
Proof. reflexivity. Qed.

Lemma sub64_Fin (x y : Q) :
  Binary64.sub (Fin x) (Fin y) = Binary64.overflow (x + - y).
Proof. reflexivity. Qed.

(** Over the exact arithmetic the definitions are the ones of the first
    part. *)
Lemma over_exact :
  (forall c es, Over.session exact c es = session c es) /\
  (forall c s, Over.advance exact c s = advance c s) /\
  (forall c, Over.initialize exact c = initialize c) /\
  (forall c w, Over.range exact c w = range c w) /\
  (forall c w d, Over.effectiveY exact c w d = effectiveY c w d) /\
  (forall c w i d, Over.point exact c w i d = point c w i d).
Proof. repeat split. Qed.

(** ** The walk *)

Lemma volatility64 (b : Q) :
  0 <= b -> b * 1.2 < Binary64.overflow_threshold ->
  exists v, Binary64.mul (Fin b) (Fin 0.005) = Fin v /\ 0 <= v /\ v <= 0.005 * b.
Proof.
  intros base_nonneg bound_finite.
  destruct thresholds as (Hu & _ & HO & _).
  rewrite mul64_Fin.
  destruct (underflow_Fin (b * 0.005)) as (v & -> & [Hv | (Hv & _)]);
    [lra | lra | |]; exists v; (split; [reflexivity | lra]).
Qed.

(** A factor of the order of one neither overflows nor underflows the
    base price. *)
Lemma bound64 (b k : Q) :
  0 <= b -> b == 0 \/ Binary64.MIN_NORMAL <= b ->
  b * 1.2 < Binary64.overflow_threshold ->
  0.5 < k -> k <= 1.2 ->
  Binary64.mul (Fin b) (Fin k) = Fin (b * k).
Proof.
  intros base_nonneg base_double bound_finite Hk0 Hk1.
  destruct thresholds as (Hu & _ & HO & HM & _).
  pose proof MIN_NORMAL_above as HN.
  rewrite mul64_Fin. apply underflow_exact.
  - destruct base_double as [H|H]; [left; rewrite H; ring | right; nra].
  - nra.
  - nra.
Qed.

(** The soft constraints over doubles, for the volatility [v] that the
    program computes. *)
Lemma constrain64 (b v : Q) (p : number) :
  0 <= b -> b == 0 \/ Binary64.MIN_NORMAL <= b ->
  b * 1.2 < Binary64.overflow_threshold ->
  Binary64.mul (Fin b) (Fin 0.005) = Fin v -> 0 <= v -> v <= 0.005 * b ->
  Over.constrain binary64 (Fin b) p =
    let p1 := if (p <? Fin (b * 0.8))%js then Fin (b * 0.8 + v) else p in
    if (p1 >? Fin (b * 1.2))%js then Fin (b * 1.2 + - v) else p1.
Proof.
  intros base_nonneg base_double bound_finite Hv Hv0 Hv1.
  unfold Over.constrain. cbn [times plus minus binary64].
  rewrite Hv, !bound64 by (assumption || lra).
  rewrite add64_Fin, sub64_Fin.
  destruct thresholds as (Hu & _ & HO & _).
  rewrite !overflow_Fin by lra. reflexivity.
Qed.

Lemma constrain64_within_band (b : Q) (p : number) :
  0 <= b -> b == 0 \/ Binary64.MIN_NORMAL <= b ->
  b * 1.2 < Binary64.overflow_threshold ->
  p <> NaN -> within_band b (Over.constrain binary64 (Fin b) p).
Proof.
  intros base_nonneg base_double bound_finite Hp.
  destruct (volatility64 b base_nonneg bound_finite) as (v & Hv & Hv0 & Hv1).
  rewrite (constrain64 b v p base_nonneg base_double bound_finite Hv Hv0 Hv1).
  unfold within_band.
  destruct p as [q| | |]; try congruence; cbn.
  - q_tests; eexists; (split; [reflexivity|]); cbn in *; lra.
  - q_tests; eexists; (split; [reflexivity|]); cbn in *; lra.
  - q_tests; eexists; (split; [reflexivity|]); cbn in *; lra.
Qed.

(** The change of a tick over doubles: at most half the volatility. *)
Lemma tick_change64 (b v r : Q) :
  b * 1.2 < Binary64.overflow_threshold ->
  Binary64.mul (Fin b) (Fin 0.005) = Fin v -> 0 <= v -> v <= 0.005 * b ->
  0 <= r -> r < 1 ->
  exists ch, Over.tick_change binary64 (Fin b) (Fin r) = Fin ch /\
             - (0.5 * v) <= ch /\ ch <= 0.5 * v.
Proof.
  intros bound_finite Hv Hv0 Hv1 H0 H1.
  unfold Over.tick_change. cbn [times minus binary64].
  destruct thresholds as (Hu & _ & HO & _).
  rewrite Hv, sub64_Fin, overflow_Fin by lra. rewrite mul64_Fin.
  match goal with |- context [Binary64.underflow ?t] => set (pr := t) end.
  assert (Hp : - (0.5 * v) <= pr /\ pr <= 0.5 * v) by (unfold pr; nra).
  clearbody pr.
  destruct (underflow_Fin pr) as (ch & -> & [Hc | (Hc & _)]);
    [lra | lra | |]; exists ch; (split; [reflexivity | lra]).
Qed.

Section RunOver.

Variable A : arithmetic.

Lemma run_over_advance_normal (c : CoinData) (s : chart) (g : rng) :
  is_GAFR c = false ->
  runState (Over.advance A c s) g =
    (let newPrice := Over.next_price A c (data s) (Fin (tape g (pos g))) in
     {| data := slice1 (data s) ++ [newPrice]; price := newPrice |},
     {| tape := tape g; pos := S (pos g) |}).
Proof. intros H. unfold Over.advance. rewrite H. reflexivity. Qed.

Lemma run_over_initialize_normal (c : CoinData) (g : rng) :
  is_GAFR c = false ->
  runState (Over.initialize A c) g =
    ({| data := map (fun i => Over.seed A (basePrice c) (Fin (tape g (pos g + i)%nat)))
                    (seq 0 maxPoints);
        price := currentPrice c |},
     {| tape := tape g; pos := (pos g + maxPoints)%nat |}).
Proof.
  intros H. unfold Over.initialize. rewrite H, run_bind, run_Array_from.
  reflexivity.
Qed.

End RunOver.

Lemma next_price64_within_band (c : CoinData) (b r : Q) (prev : list number) :
  basePrice c = Fin b ->
  0 <= b -> b == 0 \/ Binary64.MIN_NORMAL <= b ->
  b * 1.2 < Binary64.overflow_threshold ->
  0 <= r -> r < 1 ->
  within_band b (Over.next_price binary64 c prev (Fin r)).
Proof.
  intros base base_nonneg base_double bound_finite H0 H1.
  unfold Over.next_price. rewrite base.
  destruct (volatility64 b base_nonneg bound_finite) as (v & Hv & Hv0 & Hv1).
  destruct (tick_change64 b v r bound_finite Hv Hv0 Hv1 H0 H1) as (ch & -> & _).
  apply constrain64_within_band; try assumption.
  assert (Hl : or_else (last_of prev) (Fin b) <> NaN)
    by (apply or_else_not_NaN; discriminate).
  cbn [plus binary64]. unfold Binary64.add.
  destruct (or_else (last_of prev) (Fin b)) as [l| | |]; try congruence;
    cbn [JS.add Binary64.rounded]; try discriminate.
  unfold Binary64.overflow.
  destruct (Qle_bool Binary64.overflow_threshold (l + ch)); [discriminate|].
  destruct (Qle_bool (l + ch) (- Binary64.overflow_threshold)); discriminate.
Qed.

Lemma seed64_within_band (b r : Q) :
  0 <= b -> b * 1.01 < Binary64.overflow_threshold ->
  0 <= r -> r < 1 ->
  exists s, Over.seed binary64 (Fin b) (Fin r) = Fin s /\
            0.99 * b <= s /\ s <= 1.01 * b.
Proof.
  intros base_nonneg bound_finite H0 H1.
  unfold Over.seed. cbn [times plus minus binary64].
  destruct thresholds as (Hu & _ & HO & _).
  rewrite sub64_Fin, overflow_Fin by lra. rewrite mul64_Fin.
  destruct (underflow_Fin (b * 0.02)) as (w & -> & Hw); [lra | lra |].
  assert (Hw' : 0 <= w /\ w <= 0.02 * b) by (destruct Hw as [Hw | (Hw & _)]; lra).
  clear Hw. rewrite mul64_Fin.
  match goal with |- context [Binary64.underflow ?t] => set (pr := t) end.
  assert (Hp : - (0.5 * w) <= pr /\ pr <= 0.5 * w) by (unfold pr; nra).
  clearbody pr.
  destruct (underflow_Fin pr) as (d & -> & Hd); [lra | lra |].
  assert (Hd' : - (0.5 * w) <= d /\ d <= 0.5 * w) by (destruct Hd as [Hd | (Hd & _)]; lra).
  rewrite add64_Fin, overflow_Fin by lra.
  eexists. split; [reflexivity | lra].
Qed.

(** C1 (as amended).  For a coin other than GAFR whose base price [b] is
    zero or a positive normal double, with [b * 1.2] below the threshold of
    overflow, and for a draw of [[0, 1)], the sample that [advance]
    appends to the window (and shows as the price) lies in
    [[0.8 * b, 1.2 * b]], whatever the window before the tick: also when
    the walked value itself overflows. *)
Theorem advance_normal_within_band (c : CoinData) (b : Q) (s : chart) (g : rng) :
  id c <> "GAFR"%string ->
  basePrice c = Fin b ->
  0 <= b -> b == 0 \/ Binary64.MIN_NORMAL <= b ->
  b * 1.2 < Binary64.overflow_threshold ->
  0 <= tape g (pos g) -> tape g (pos g) < 1 ->
  exists v,
    data (fst (runState (Over.advance binary64 c s) g)) = slice1 (data s) ++ [v] /\
    price (fst (runState (Over.advance binary64 c s) g)) = v /\
    within_band b v.
Proof.
  intros Hid Hc Hb Hd Hmax H0 H1. apply is_GAFR_false in Hid.
  rewrite (run_over_advance_normal _ _ _ _ Hid). cbn [fst data price].
  eexists. repeat split.
  apply next_price64_within_band; assumption.
Qed.

Lemma advance_normal_within_band_witness :
  (0 <= 100 /\ (100 == 0 \/ Binary64.MIN_NORMAL <= 100) /\
   100 * 1.2 < Binary64.overflow_threshold) /\
  exists v,
    data (fst (runState (Over.advance binary64 btc {| data := [Fin 80]; price := Fin 80 |})
                 (constant_tape 0))) = slice1 [Fin 80] ++ [v] /\
    price (fst (runState (Over.advance binary64 btc {| data := [Fin 80]; price := Fin 80 |})
                  (constant_tape 0))) = v /\
    within_band 100 v.
Proof.
  assert (Hd : 100 == 0 \/ Binary64.MIN_NORMAL <= 100)
    by (right; vm_compute; discriminate).
  assert (Hmax : 100 * 1.2 < Binary64.overflow_threshold)
    by (vm_compute; reflexivity).
  split; [split; [lra | split; assumption]|].
  apply (advance_normal_within_band btc 100
           {| data := [Fin 80]; price := Fin 80 |} (constant_tape 0)).
  - discriminate.
  - reflexivity.
  - lra.
  - exact Hd.
  - exact Hmax.
  - cbn. lra.
  - cbn. lra.
Defined.

(** C1, the claim as written, fails for a base price near the largest
    double: [17 * 10^307] times 1.2 overflows, so that the upper bound is
    an infinity and the upper constraint never applies; with draws of
    1023/1024 the walk, seeded within one percent of the base price,
    overflows on its twentieth tick, and the sample is [Infinity]. *)
Lemma advance_overflows_at_large_basePrice :
  (basePrice large_coin = Fin (17 * 10 ^ 307) /\
   0 <= 17 * 10 ^ 307 /\ 17 * 10 ^ 307 <= Binary64.MAX_VALUE /\
   unit_draws (constant_tape (1023 # 1024))) /\
  last_of (data (st (fst (runState
             (Over.session binary64 large_coin (repeat Tick 20))
             (constant_tape (1023 # 1024)))))) = Some PInf /\
  ~ within_band (17 * 10 ^ 307) PInf.
Proof.
  split; [|split].
  - split; [reflexivity|]. split; [vm_compute; discriminate|].
    split; [vm_compute; discriminate|].
    intros i; cbn; split; [discriminate | reflexivity].
  - vm_compute. reflexivity.
  - intros (s & Hs & _). discriminate Hs.
Qed.

(** X3.  For a coin other than GAFR whose base price [b] is zero or a
    positive normal double with [b * 1.2] below the threshold of overflow, from
    a last sample within the band and for a draw of [[0, 1)], a tick
    moves the price by at most half a percent of the base price, whether
    the walk is reset at a bound or not and also when the walked value
    overflows. *)
Theorem advance_move_bounded (c : CoinData) (b l : Q) (s : chart) (g : rng) :
  id c <> "GAFR"%string ->
  basePrice c = Fin b ->
  0 <= b -> b == 0 \/ Binary64.MIN_NORMAL <= b ->
  b * 1.2 < Binary64.overflow_threshold ->
  last_of (data s) = Some (Fin l) ->
  0.8 * b <= l -> l <= 1.2 * b ->
  0 <= tape g (pos g) -> tape g (pos g) < 1 ->
  exists v,
    data (fst (runState (Over.advance binary64 c s) g)) = slice1 (data s) ++ [Fin v] /\
    Qabs (v - l) <= 0.005 * b.
Proof.
  intros Hid Hc Hb Hd Hmax Hl Hlo Hhi H0 H1. apply is_GAFR_false in Hid.
  rewrite (run_over_advance_normal _ _ _ _ Hid). cbn [fst data].
  set (r := tape g (pos g)) in *.
  unfold Over.next_price. rewrite Hl, Hc.
  destruct (volatility64 b Hb Hmax) as (v & Hv & Hv0 & Hv1).
  destruct (tick_change64 b v r Hmax Hv Hv0 Hv1 H0 H1) as (ch & -> & Hc0 & Hc1).
  rewrite (constrain64 b v _ Hb Hd Hmax Hv Hv0 Hv1). cbv zeta.
  assert (Hlast : exists l', or_else (Some (Fin l)) (Fin b) = Fin l' /\ l' == l).
  { cbn [or_else]. unfold logical_or. cbn [truthy].
    destruct (Qeq_bool l 0) eqn:El;
      [apply Qeq_bool_iff in El | apply Qeq_bool_neq in El]; cbn [negb].
    - exists b. split; [reflexivity | lra].
    - exists l. split; reflexivity. }
  destruct Hlast as (l' & -> & Hl').
  cbn [plus binary64]. rewrite add64_Fin.
  destruct (Qlt_le_dec (l' + ch) Binary64.overflow_threshold) as [Hin|Hout].
  - destruct thresholds as (Hu & _ & HO & _).
    rewrite overflow_Fin by lra. cbn [ltb gtb].
    destruct (Qltb (l' + ch) (b * 0.8)) eqn:E1;
      [apply Qltb_lt in E1 | apply Qltb_ge in E1]; cbn [ltb];
      match goal with |- context [Qltb ?x ?y] =>
        destruct (Qltb x y) eqn:E2;
        [apply Qltb_lt in E2 | apply Qltb_ge in E2] end;
      eexists; (split; [reflexivity|]); apply Qabs_case; intros; lra.
  - rewrite overflow_PInf by assumption. cbn [ltb gtb].
    eexists. split; [reflexivity|]. apply Qabs_case; intros; lra.
Qed.

Lemma advance_move_bounded_witness :
  (0 <= 100 /\ (100 == 0 \/ Binary64.MIN_NORMAL <= 100) /\
   100 * 1.2 < Binary64.overflow_threshold /\
   0.8 * 100 <= 80 /\ 80 <= 1.2 * 100) /\
  exists v,
    data (fst (runState (Over.advance binary64 btc
                           {| data := [Fin 90; Fin 80]; price := Fin 80 |})
                 (constant_tape 0))) = slice1 [Fin 90; Fin 80] ++ [Fin v] /\
    Qabs (v - 80) <= 0.005 * 100.
Proof.
  assert (Hd : 100 == 0 \/ Binary64.MIN_NORMAL <= 100)
    by (right; vm_compute; discriminate).
  assert (Hmax : 100 * 1.2 < Binary64.overflow_threshold)
    by (vm_compute; reflexivity).
  split; [repeat split; try assumption; lra|].
  apply (advance_move_bounded btc 100 80
           {| data := [Fin 90; Fin 80]; price := Fin 80 |} (constant_tape 0)).
  - discriminate.
  - reflexivity.
  - lra.
  - exact Hd.
  - exact Hmax.
  - reflexivity.
  - lra.
  - lra.
  - cbn. lra.
  - cbn. lra.
Defined.

Lemma ticks64_within_band (c : CoinData) (b : Q) (n : nat) (v : view) (g : rng) :
  is_GAFR c = false -> basePrice c = Fin b ->
  0 <= b -> b == 0 \/ Binary64.MIN_NORMAL <= b ->
  b * 1.2 < Binary64.overflow_threshold ->
  unit_draws g ->
  coin v = c ->
  Forall (within_band b) (data (st v)) ->
  Forall (within_band b)
    (data (st (fst (runState (Over.steps binary64 v (repeat Tick n)) g)))).
Proof.
  intros Hid Hc Hb Hd Hmax. revert v g.
  induction n as [|n IH]; intros v g Hg Hv Hw; cbn [repeat Over.steps].
  - rewrite run_ret. exact Hw.
  - rewrite run_bind. apply IH.
    + cbn [Over.step]. rewrite run_bind, run_ret. cbn [snd].
      rewrite Hv, (run_over_advance_normal _ _ _ _ Hid). cbn [snd].
      intros i. apply (Hg i).
    + cbn [Over.step]. rewrite run_bind, run_ret. cbn [fst coin]. exact Hv.
    + cbn [Over.step]. rewrite run_bind, run_ret. cbn [fst st].
      rewrite Hv, (run_over_advance_normal _ _ _ _ Hid). cbn [fst data].
      apply Forall_app. split.
      * unfold slice1. destruct (data (st v)) as [|x xs]; [constructor|].
        inversion Hw; assumption.
      * constructor; [|constructor].
        destruct (Hg (pos g)) as [H0 H1].
        apply next_price64_within_band; assumption.
Qed.

(** X1.  For a coin other than GAFR whose base price [b] is zero or a
    positive normal double with [b * 1.2] below the threshold of overflow, and
    for draws of [[0, 1)], every sample of the window lies in
    [[0.8 * b, 1.2 * b]] after the reset and after any number of ticks. *)
Theorem session_within_band (c : CoinData) (b : Q) (n : nat) (g : rng) :
  id c <> "GAFR"%string -> basePrice c = Fin b ->
  0 <= b -> b == 0 \/ Binary64.MIN_NORMAL <= b ->
  b * 1.2 < Binary64.overflow_threshold ->
  unit_draws g ->
  Forall (within_band b)
    (data (st (fst (runState (Over.session binary64 c (repeat Tick n)) g)))).
Proof.
  intros Hid Hc Hb Hd Hmax Hg. apply is_GAFR_false in Hid.
  unfold Over.session, Over.mount. rewrite run_bind, run_bind, run_ret. cbn [fst snd].
  rewrite (run_over_initialize_normal _ _ _ Hid), Hc. cbn [fst snd].
  apply (ticks64_within_band c b n _ _ Hid Hc Hb Hd Hmax).
  - intros i. apply (Hg i).
  - reflexivity.
  - cbn [st data]. apply Forall_forall. intros v Hv.
    apply in_map_iff in Hv. destruct Hv as (i & <- & _).
    destruct (Hg (pos g + i)%nat) as [H0 H1].
    assert (Hseed : b * 1.01 < Binary64.overflow_threshold) by lra.
    destruct (seed64_within_band b _ Hb Hseed H0 H1) as (s & -> & Hs0 & Hs1).
    exists s. split; [reflexivity | lra].
Qed.

Lemma session_within_band_witness :
  (0 <= 100 /\ (100 == 0 \/ Binary64.MIN_NORMAL <= 100) /\
   100 * 1.2 < Binary64.overflow_threshold /\ unit_draws (constant_tape 0)) /\
  Forall (within_band 100)
    (data (st (fst (runState (Over.session binary64 btc (repeat Tick 3))
                      (constant_tape 0))))).
Proof.
  assert (Hd : 100 == 0 \/ Binary64.MIN_NORMAL <= 100)
    by (right; vm_compute; discriminate).
  assert (Hmax : 100 * 1.2 < Binary64.overflow_threshold)
    by (vm_compute; reflexivity).
  assert (Hg : unit_draws (constant_tape 0)) by (intros i; cbn; lra).
  split; [split; [lra | split; [exact Hd | split; [exact Hmax | exact Hg]]]|].
  apply (session_within_band btc 100 3 (constant_tape 0)).
  - discriminate.
  - reflexivity.
  - lra.
  - exact Hd.
  - exact Hmax.
  - exact Hg.
Defined.

(** ** Normalization *)

Lemma finite_span (M m : Q) :
  is_finite (Binary64.sub (Fin M) (Fin m)) ->
  M + - m < Binary64.overflow_threshold.
Proof.
  intros [x Hx]. rewrite sub64_Fin in Hx. unfold Binary64.overflow in Hx.
  destruct (Qle_bool Binary64.overflow_threshold (M + - m)) eqn:E;
    [discriminate Hx|].
  apply Qnot_le_lt. intros H. apply Qle_bool_iff in H. congruence.
Qed.

Lemma sub64_nonneg (x y : Q) :
  0 <= x + - y -> x + - y < Binary64.overflow_threshold ->
  Binary64.sub (Fin x) (Fin y) = Fin (x + - y).
Proof.
  intros H0 H1. destruct thresholds as (_ & _ & HO & _).
  rewrite sub64_Fin. apply overflow_Fin; lra.
Qed.

Lemma range64 (c : CoinData) (b m M : Q) (w : list number) :
  basePrice c = Fin b -> Math_min w = Fin m -> Math_max w = Fin M ->
  is_finite (Binary64.sub (Fin M) (Fin m)) ->
  Binary64.sub (Fin M) (Fin m) = Fin (M + - m) /\
  Over.range binary64 c w =
    if Qeq_bool (M + - m) 0
    then (if Qltb 0 b then Binary64.mul (Fin b) (Fin 0.0001) else Fin 1)
    else Fin (M + - m).
Proof.
  intros Hb Hm HM Hspan.
  assert (E : Binary64.sub (Fin M) (Fin m) = Fin (M + - m)).
  { rewrite sub64_Fin in *. unfold Binary64.overflow in *.
    destruct (Qle_bool Binary64.overflow_threshold (M + - m));
      [destruct Hspan; discriminate|].
    destruct (Qle_bool (M + - m) (- Binary64.overflow_threshold));
      [destruct Hspan; discriminate | reflexivity]. }
  split; [exact E|].
  unfold Over.range. rewrite Hb, Hm, HM. cbn [minus times binary64].
  rewrite E. unfold logical_or. cbn [truthy gtb ltb].
  destruct (Qeq_bool (M + - m) 0); reflexivity.
Qed.

Lemma div64_unit (x y : Q) :
  0 <= x -> x <= y -> 0 < y ->
  exists t, Binary64.div (Fin x) (Fin y) = Fin t /\ 0 <= t /\ t <= 1.
Proof.
  intros Hx Hxy Hy.
  destruct thresholds as (Hu & _ & HO & _).
  unfold Binary64.div. rewrite div_Fin by lra. cbn [Binary64.rounded].
  assert (H0 : 0 <= x / y) by (apply Qle_shift_div_l; lra).
  assert (H1 : x / y <= 1) by (apply Qle_shift_div_r; lra).
  set (q := x / y) in *. clearbody q.
  destruct (underflow_Fin q) as (t & -> & [Ht | (Ht & _)]); [lra | lra | |];
    exists t; (split; [reflexivity | lra]).
Qed.

Lemma effectiveY64 (c : CoinData) (b : Q) (w : list number) (q : Q) :
  basePrice c = Fin b ->
  Forall is_finite w -> In (Fin q) w ->
  is_finite (Binary64.sub (Math_max w) (Math_min w)) ->
  exists t, Over.effectiveY binary64 c w (Fin q) = Fin t /\ 0 <= t /\ t <= 1.
Proof.
  intros Hb Hf Hd Hspan.
  assert (Hne : w <> []) by (intros ->; contradiction).
  destruct (Math_min_finite w Hf Hne) as (m & Hm & _ & Hlo).
  destruct (Math_max_finite w Hf Hne) as (M & HM & _ & Hhi).
  pose proof (Hlo _ Hd) as Hmq. pose proof (Hhi _ Hd) as HqM.
  rewrite Hm, HM in Hspan.
  destruct (range64 c b m M w Hb Hm HM Hspan) as [Esub Er].
  unfold Over.effectiveY. rewrite HM, Hm. cbn [strict_eq].
  destruct (Qeq_bool M m) eqn:E;
    [apply Qeq_bool_iff in E | apply Qeq_bool_neq in E].
  - exists 0.5. split; [reflexivity|]. split; lra.
  - unfold Over.normalizedY. rewrite Er, Hm.
    destruct (Qeq_bool (M + - m) 0) eqn:E0;
      [apply Qeq_bool_iff in E0; exfalso; apply E; lra|].
    cbn [minus quotient binary64].
    assert (Hnum : Binary64.sub (Fin q) (Fin m) = Fin (q + - m)).
    { pose proof (finite_span M m Hspan). apply sub64_nonneg; lra. }
    rewrite Hnum. apply div64_unit; lra.
Qed.

Lemma point64_finite (c : CoinData) (w : list number) (i : nat) (d : number) (t : Q) :
  Over.effectiveY binary64 c w d = Fin t -> 0 <= t -> t <= 1 ->
  exists y, snd (Over.point binary64 c w i d) = Fin y /\ 60 <= y /\ y <= 340.
Proof.
  intros Ht Ht0 Ht1. unfold Over.point. cbn [snd]. rewrite Ht.
  destruct thresholds as (Hu & Hu' & HO & _).
  unfold height. cbn [minus plus times binary64].
  rewrite !mul64_Fin.
  rewrite (underflow_exact (400 * 0.7)) by lra.
  rewrite (underflow_exact (400 * 0.15)) by lra.
  rewrite mul64_Fin.
  destruct (underflow_Fin (t * (400 * 0.7))) as (p & -> & Hp); [lra | lra |].
  assert (Hp' : 0 <= p /\ p <= 280) by (destruct Hp as [Hp | (Hp & _)]; lra).
  rewrite add64_Fin, overflow_Fin by lra.
  rewrite sub64_Fin, overflow_Fin by lra.
  eexists. split; [reflexivity | lra].
Qed.

(** C5 (as amended).  For a rational base price [b >= 0] and a window of
    rationals whose span [max - min] does not overflow, the value
    computed for every point of the window is a rational of [[0, 1]] and
    its [y] coordinate one of [[60, 340]]: neither is NaN or an infinity.
    When [max - min] is zero the divisor is [b * 0.0001] for [b > 0] and 1
    otherwise, and when [max] equals [min] the value of every point is
    0.5.  The divisor is not zero, and the raw quotient a rational as
    well, unless [b * 0.0001] underflows. *)
Theorem normalize_finite (c : CoinData) (b : Q) (w : list number) (i : nat) (d : number) :
  basePrice c = Fin b ->
  0 <= b -> b <= Binary64.MAX_VALUE ->
  Forall is_finite w ->
  In d w ->
  is_finite (Binary64.sub (Math_max w) (Math_min w)) ->
  (exists t, Over.effectiveY binary64 c w d = Fin t /\ 0 <= t /\ t <= 1) /\
  (exists y, snd (Over.point binary64 c w i d) = Fin y /\ 60 <= y /\ y <= 340) /\
  (Binary64.sub (Math_max w) (Math_min w) =j= Fin 0 ->
     Over.range binary64 c w =
       if Qltb 0 b then Binary64.mul (Fin b) (Fin 0.0001) else Fin 1) /\
  (Math_max w =j= Math_min w -> Over.effectiveY binary64 c w d = Fin 0.5) /\
  (b == 0 \/ Binary64.underflow_threshold < b * 0.0001 ->
     (exists r, Over.range binary64 c w = Fin r /\ ~ r == 0) /\
     is_finite (Over.normalizedY binary64 c w d)).
Proof.
  intros Hb Hpos Hfin Hf Hd Hspan.
  assert (Hne : w <> []) by (intros ->; contradiction).
  destruct (Math_min_finite w Hf Hne) as (m & Hm & Hmin & Hlo).
  destruct (Math_max_finite w Hf Hne) as (M & HM & Hmax & Hhi).
  assert (Hq : exists q, d = Fin q)
    by (rewrite Forall_forall in Hf; exact (Hf d Hd)).
  destruct Hq as [q ->].
  pose proof (Hlo _ Hd) as Hmq. pose proof (Hhi _ Hd) as HqM.
  destruct (effectiveY64 c b w q Hb Hf Hd Hspan) as (t & Ht & Ht0 & Ht1).
  rewrite Hm, HM in Hspan.
  destruct (range64 c b m M w Hb Hm HM Hspan) as [Esub Er].
  split; [exists t; auto|].
  split; [apply (point64_finite c w i (Fin q) t); assumption|].
  split; [|split].
  - rewrite HM, Hm, Esub. cbn [equiv]. intros E.
    rewrite Er. apply Qeq_bool_iff in E. rewrite E. reflexivity.
  - rewrite HM, Hm. cbn [equiv]. intros E.
    unfold Over.effectiveY. rewrite HM, Hm. cbn [strict_eq].
    apply Qeq_bool_iff in E. rewrite E. reflexivity.
  - intros Hguard.
    destruct thresholds as (Hu & Hu' & HO & _ & HMAX).
    pose proof (finite_span M m Hspan) as HMm.
    assert (Hrange : exists r, Over.range binary64 c w = Fin r /\ 0 < r /\ q + - m <= r).
    { rewrite Er.
      destruct (Qeq_bool (M + - m) 0) eqn:E0;
        [apply Qeq_bool_iff in E0 | apply Qeq_bool_neq in E0].
      - destruct (Qltb 0 b) eqn:Eb; [apply Qltb_lt in Eb | apply Qltb_ge in Eb].
        + rewrite mul64_Fin, underflow_exact by lra.
          exists (b * 0.0001). split; [reflexivity|]. split; lra.
        + exists 1. split; [reflexivity|]. split; lra.
      - exists (M + - m). split; [reflexivity|]. split; lra. }
    destruct Hrange as (r & Hr & Hrpos & Hqr).
    split; [exists r; split; [exact Hr | lra]|].
    unfold Over.normalizedY. rewrite Hr, Hm. cbn [minus quotient binary64].
    rewrite sub64_nonneg by lra.
    destruct (div64_unit (q + - m) r) as (t' & -> & _); [lra | lra | lra |].
    eexists. reflexivity.
Qed.

Lemma normalize_finite_witness :
  (0 <= 100 /\ 100 <= Binary64.MAX_VALUE /\
   Forall is_finite [Fin 7; Fin 9; Fin 8] /\ In (Fin 9) [Fin 7; Fin 9; Fin 8] /\
   is_finite (Binary64.sub (Math_max [Fin 7; Fin 9; Fin 8]) (Math_min [Fin 7; Fin 9; Fin 8]))) /\
  (exists t, Over.effectiveY binary64 btc [Fin 7; Fin 9; Fin 8] (Fin 9) = Fin t /\
             0 <= t /\ t <= 1) /\
  (exists y, snd (Over.point binary64 btc [Fin 7; Fin 9; Fin 8] 1 (Fin 9)) = Fin y /\
             60 <= y /\ y <= 340).
Proof.
  assert (Hmax : 100 <= Binary64.MAX_VALUE) by (vm_compute; discriminate).
  assert (Hf : Forall is_finite [Fin 7; Fin 9; Fin 8])
    by (repeat constructor; eexists; reflexivity).
  assert (Hin : In (Fin 9) [Fin 7; Fin 9; Fin 8]) by (right; left; reflexivity).
  assert (Hspan : is_finite (Binary64.sub (Math_max [Fin 7; Fin 9; Fin 8])
                                          (Math_min [Fin 7; Fin 9; Fin 8])))
    by (eexists; vm_compute; reflexivity).
  split; [split; [lra | split; [exact Hmax | split; [exact Hf | split; [exact Hin | exact Hspan]]]]|].
  assert (H0 : 0 <= 100) by lra.
  destruct (normalize_finite btc 100 [Fin 7; Fin 9; Fin 8] 1 (Fin 9)
              eq_refl H0 Hmax Hf Hin Hspan) as (H1 & H2 & _).
  split; assumption.
Defined.

(** C5, the claim as written, fails on a window of rationals whose span
    overflows: between [-10^308] and [10^308] the span is [Infinity], and
    the value of the greatest sample is [Infinity / Infinity]. *)
Lemma normalize_NaN_on_wide_window :
  (basePrice btc = Fin 100 /\ 0 <= 100 /\
   Forall is_finite wide_window /\ In (Fin (10 ^ 308)) wide_window /\
   10 ^ 308 <= Binary64.MAX_VALUE) /\
  Over.range binary64 btc wide_window = PInf /\
  Over.effectiveY binary64 btc wide_window (Fin (10 ^ 308)) = NaN.
Proof.
  split; [|split; vm_compute; reflexivity].
  split; [reflexivity|]. split; [lra|].
  split; [repeat constructor; eexists; reflexivity|].
  split; [right; left; reflexivity|].
  vm_compute. discriminate.
Qed.

(** Where the guard underflows the divisor is zero: over a base price of
    [MIN_VALUE] and its flat window the raw quotient is [0 / 0], and the
    value of the point is the 0.5 of a flat line all the same. *)
Example range_guard_underflows :
  Over.range binary64 tiny_coin [Fin Binary64.MIN_VALUE; Fin Binary64.MIN_VALUE]
    = Fin 0 /\
  Over.normalizedY binary64 tiny_coin [Fin Binary64.MIN_VALUE; Fin Binary64.MIN_VALUE]
    (Fin Binary64.MIN_VALUE) = NaN /\
  Over.effectiveY binary64 tiny_coin [Fin Binary64.MIN_VALUE; Fin Binary64.MIN_VALUE]
    (Fin Binary64.MIN_VALUE) = Fin 0.5.
Proof. repeat split; vm_compute; reflexivity. Qed.

(** ** Seeding the window *)



(** Near the largest double the seeds overflow: over a base price of
    [179 * 10^306] a draw of 3/4 is seeded as [Infinity]. *)
Example seed_overflows :
  Over.seed binary64 (Fin (179 * 10 ^ 306)) (Fin 0.75) = PInf.
Proof. vm_compute. reflexivity. Qed.
